(** * MAAS node views and migrations: a shallow embedding

    This development embeds, function by function, the parts of

      - [src/maasserver/views/nodes.py]
      - [src/maasserver/migrations/maasserver/0240_ownerdata_key_fix.py]
      - [src/maasserver/migrations/maasserver/0245_bmc_power_parameters_index_hash.py]

    that the specification makes statements about, and proves or refutes
    those statements (part II); part III proves further properties of the
    functions of these files.

    Conventions.  Python text is a [string]; a character is an 8-bit code
    point.  Python integers are [Z].  A Python [set] of text is a
    [gset string], a [dict] is a [gmap].  A database table is the list of
    its rows in the order the query returns them.  An exception is a
    constructor of an error type and a raising function returns a sum. *)

From Stdlib Require Import ZArith Ascii String List Sorting.Sorted Permutation Lia.
From stdpp Require Import base numbers option list sorting strings pretty gmap.

Local Open Scope Z_scope.

(** ** Python text helpers *)

Module Py.

(** The one-character text made of a double quote. *)
Definition dquote : string := String "034"%char EmptyString.

(** [sep.join(l)] *)
Fixpoint join (sep : string) (l : list string) : string :=
  match l with
  | [] => EmptyString
  | [x] => x
  | x :: rest => x +:+ sep +:+ join sep rest
  end.

(** An argument of the [%] operator. *)
Inductive fmt_arg := ArgS (s : string) | ArgD (n : Z).

(** [tpl % args] for templates whose directives are [%s] and [%d] and
    whose arguments have the type the directive asks for.  [%d] prints
    an integer in decimal, with a leading [-] when negative. *)
Fixpoint format (tpl : string) (args : list fmt_arg) : string :=
  match tpl with
  | String "%" (String "s" rest) =>
      match args with
      | ArgS s :: args' => s +:+ format rest args'
      | _ => String "%" (String "s" (format rest args))
      end
  | String "%" (String "d" rest) =>
      match args with
      | ArgD n :: args' => pretty n +:+ format rest args'
      | _ => String "%" (String "d" (format rest args))
      end
  | String c rest => String c (format rest args)
  | EmptyString => EmptyString
  end.

(** [unicode.isspace] on the code points below 256: tab to carriage
    return, the four separators FS GS RS US, the space, NEL and the
    no-break space. *)
Definition is_space (c : ascii) : bool :=
  let n := N_of_ascii c in
  (((9 <=? n) && (n <=? 13)) || ((28 <=? n) && (n <=? 31)) ||
   (n =? 32) || (n =? 133) || (n =? 160))%N.

Definition is_empty (s : string) : bool :=
  match s with EmptyString => true | _ => false end.

(** [s.lstrip()], [s.rstrip()] and [s.strip()] *)
Fixpoint lstrip (s : string) : string :=
  match s with
  | String c rest => if is_space c then lstrip rest else s
  | EmptyString => EmptyString
  end.

(** A white space character is dropped when nothing is left of the text
    after it. *)
Fixpoint rstrip (s : string) : string :=
  match s with
  | String c rest =>
      let rest' := rstrip rest in
      if is_empty rest' && is_space c then EmptyString else String c rest'
  | EmptyString => EmptyString
  end.

Definition strip (s : string) : string := rstrip (lstrip s).

(** [s.split()]: the maximal runs of characters that are not white
    space.  [cur] is the run being read. *)
Fixpoint split_go (cur : string) (s : string) : list string :=
  match s with
  | String c rest =>
      if is_space c
      then (if is_empty cur then [] else [cur]) ++ split_go EmptyString rest
      else split_go (cur +:+ String c EmptyString) rest
  | EmptyString => if is_empty cur then [] else [cur]
  end.

Definition split (s : string) : list string := split_go EmptyString s.

(** The first occurrence of the separator, when there is one: the text
    before it and the text after it. *)
Fixpoint partition (sep : ascii) (s : string) : option (string * string) :=
  match s with
  | String c rest =>
      if Ascii.eqb c sep then Some (EmptyString, rest)
      else match partition sep rest with
           | Some (before, after) => Some (String c before, after)
           | None => None
           end
  | EmptyString => None
  end.

(** [s.split(sep, 1)] for a one-character separator. *)
Definition split1 (sep : ascii) (s : string) : list string :=
  match partition sep s with
  | Some (before, after) => [before; after]
  | None => [s]
  end.

(** [sorted(l, key=key)]: a stable sort, here by insertion from the
    right; an element goes before the elements of equal key that
    followed it in the input. *)
Fixpoint insert_by {A} (key : A → Z) (x : A) (l : list A) : list A :=
  match l with
  | [] => [x]
  | y :: rest =>
      if key x <=? key y then x :: y :: rest
      else y :: insert_by key x rest
  end.

Definition sorted {A} (key : A → Z) (l : list A) : list A :=
  foldr (insert_by key) [] l.

End Py.

(** Exceptions the embedded functions raise.  [LoopBound] is not a Python
    exception: it marks a [while] loop cut by the bound the model puts on
    it, and is shown below never to happen. *)
Inductive exn :=
  | PermissionDenied | Http404 | KeyError | AttributeError | LoopBound.

Inductive result (A : Type) :=
  | Ok (a : A)
  | Raise (e : exn).
Arguments Ok {A} a.
Arguments Raise {A} e.

#[global] Instance result_ret : MRet result := λ A a, Ok a.
#[global] Instance result_bind : MBind result := λ A B k r,
  match r with
  | Ok a => k a
  | Raise e => Raise e
  end.

#[global] Instance exn_eq_dec : EqDecision exn.
Proof. solve_decision. Defined.

(** ** [message_from_form_stats] (views/nodes.py, lines 124-157) *)

(** The only attribute of an action class the function reads. *)
Record Action := { display_bulk : string }.

Definition done_templates : string * string :=
  ("%s was successfully performed on %d node.",
   "%s was successfully performed on %d nodes.").

Definition not_actionable_templates : string * string :=
  ("%s could not be performed on %d node because its " +:+
   "state does not allow that action.",
   "%s could not be performed on %d nodes because their " +:+
   "state does not allow that action.").

Definition not_permitted_templates : string * string :=
  ("%s could not be performed on %d node because that " +:+
   "action is not permitted on that node.",
   "%s could not be performed on %d nodes because that " +:+
   "action is not permitted on these nodes.").

(** The body of the [for] loop: the state is the pair of the list
    [message] and the variable [action_name]. *)
Definition message_step (st : list string * string)
    (entry : Z * (string * string)) : list string * string :=
  let '(message, action_name) := st in
  let '(number, (singular, plural)) := entry in
  if negb (number =? 0) then
    let message_template := if number =? 1 then singular else plural in
    (message ++ [Py.format message_template [Py.ArgS action_name; Py.ArgD number]],
     "It")
  else (message, action_name).

Definition message_from_form_stats (action : Action)
    (done not_actionable not_permitted : Z) : string :=
  let action_name :=
    Py.format ("The action " +:+ Py.dquote +:+ "%s" +:+ Py.dquote)
      [Py.ArgS (display_bulk action)] in
  let number_message :=
    [(done, done_templates);
     (not_actionable, not_actionable_templates);
     (not_permitted, not_permitted_templates)] in
  let '(message, _) := fold_left message_step number_message ([], action_name) in
  Py.join " " message.

(** ** [_parse_constraints] (views/nodes.py, lines 104-121) *)

(** The body of the [for word in ...] loop; the state is the list
    [constraints]. *)
Definition constraint_step (constraints : list string) (word : string)
    : list string :=
  let parts := Py.split1 "=" word in
  if negb (length parts =? 2)%nat then
    (* Empty constraint. *)
    constraints ++ [Py.format "%s=" [Py.ArgS (nth 0 parts EmptyString)]]
  else if negb (String.eqb (nth 1 parts EmptyString) "any") then
    (* 'any' constraint: discard it. *)
    constraints ++ [Py.format "%s=%s" (map Py.ArgS parts)]
  else constraints.

(** The list [constraints] when the loop ends. *)
Definition parsed_constraints (query_string : string) : list string :=
  fold_left constraint_step (Py.split (Py.strip query_string)) [].

Section ParseConstraints.
(** Django's [QueryDict], built from a query string. *)
Context {QD : Type} (QueryDict : string → QD).

Definition _parse_constraints (query_string : string) : QD :=
  QueryDict (Py.join "&" (parsed_constraints query_string)).
End ParseConstraints.

(** ** Data model *)

(** Modelled from the spec: the enumeration [NODE_STATUS] of
    [maasserver.enum], which is not among the sources; the members are the
    statuses of section 4.1 of the specification. *)
Inductive NODE_STATUS :=
  | NEW | COMMISSIONING | FAILED_COMMISSIONING | READY | ALLOCATED
  | DEPLOYING | DEPLOYED | FAILED_DEPLOYMENT | RELEASING | BROKEN.

#[global] Instance NODE_STATUS_eq_dec : EqDecision NODE_STATUS.
Proof. solve_decision. Defined.

(** Modelled from the spec: the enumeration [NODE_PERMISSION] of
    [maasserver.enum]: the three levels of section 4.2. *)
Inductive NODE_PERMISSION := VIEW | EDIT | ADMIN.

Record MACAddress := {
  mac_address : string;
  created : Z;
}.

(** A node, with the attributes [configure_macs] sets on it. *)
Record Node := {
  system_id : string;
  status : NODE_STATUS;
  macaddress_set : list MACAddress;
  primary_mac : option string;
  primary_mac_vendor : option string;
  extra_macs : list string;
}.

(** An event: its primary key, the node it is about (a nullable foreign
    key, here the node's [system_id]) and the level of its type. *)
Record Event := {
  event_id : Z;
  event_node : option string;
  type_level : Z;
}.

(** [logging.DEBUG] *)
Definition logging_DEBUG : Z := 10.

(** ** [configure_macs] (views/nodes.py, lines 189-216) *)

Section ConfigureMacs.
(** [EUI(mac).oui.registration().org] of netaddr; [None] stands for
    [NotRegisteredError]. *)
Variable registration_org : string → option string.

Definition get_vendor_for_mac (mac : string) : string :=
  match registration_org mac with
  | Some org => org
  | None => "Unknown Vendor"
  end.

(** The body of the [for node in nodes] loop. *)
Definition configure_macs_node (node : Node) : Node :=
  let macs := macaddress_set node in
  let macs := Py.sorted created macs in
  let macs := map (λ mac, Py.format "%s" [Py.ArgS (mac_address mac)]) macs in
  match macs with
  | [] =>
      {| system_id := system_id node; status := status node;
         macaddress_set := macaddress_set node;
         primary_mac := None;
         primary_mac_vendor := None;
         extra_macs := [] |}
  | first :: rest =>
      {| system_id := system_id node; status := status node;
         macaddress_set := macaddress_set node;
         primary_mac := Some first;
         primary_mac_vendor := Some (get_vendor_for_mac first);
         extra_macs := rest |}
  end.

Definition configure_macs (nodes : list Node) : list Node :=
  map configure_macs_node nodes.
End ConfigureMacs.

(** ** [NodeListView._constrain_nodes] (views/nodes.py, lines 316-336) *)

(** What the view reads from a bound [AcquireNodeForm.Strict]. *)
Record Form := {
  is_valid : bool;
  errors : list (string * list string);
  filter_nodes : list Node → list Node;
}.

(** The attributes of the view that [populate_modifiers] sets. *)
Record NodeListView := {
  query : option string;
  query_error : option string;
  sort_by : option string;
  sort_dir : option string;
}.

Definition set_query_error (self : NodeListView) (e : option string)
    : NodeListView :=
  {| query := query self; query_error := e;
     sort_by := sort_by self; sort_dir := sort_dir self |}.

Section ConstrainNodes.
Context {QD : Type} (QueryDict : string → QD).
(** [AcquireNodeForm.Strict(data=data)] followed by
    [form.rename_fields(JUJU_ACQUIRE_FORM_FIELDS_MAPPING)]; the form
    class is in [maasserver.node_constraint_filter_forms]. *)
Variable AcquireNodeForm_Strict : QD → Form.
Variable rename_fields : Form → Form.

(** Returns the view, whose [query_error] may have been set, and the
    query set.  [self.query] is [None] when the request has no [query]
    parameter, and [None] has no [strip]. *)
Definition _constrain_nodes (self : NodeListView) (nodes_query : list Node)
    : result (NodeListView * list Node) :=
  match query self with
  | None => Raise AttributeError
  | Some q =>
      let data := _parse_constraints QueryDict q in
      let form := AcquireNodeForm_Strict data in
      let form := rename_fields form in
      if is_valid form then
        Ok (self, filter_nodes form nodes_query)
      else
        let query_error :=
          Py.join ", "
            (map (λ '(field, errors),
                    Py.format "%s: %s"
                      [Py.ArgS field; Py.ArgS (Py.join ", " errors)])
                 (errors form)) in
        Ok (set_query_error self (Some query_error), [])
  end.
End ConstrainNodes.

(** ** [NodeDelete.get_object] (views/nodes.py, lines 688-695) *)

Section NodeDelete.
Variable User : Type.
(** [Node.objects.get_node_or_404], of the node manager. *)
Variable get_node_or_404 :
  option string → User → NODE_PERMISSION → result Node.

Definition NodeDelete_get_object (kwargs_system_id : option string)
    (user : User) : result Node :=
  let system_id := kwargs_system_id in
  node ← get_node_or_404 system_id user ADMIN;
  if decide (status node = ALLOCATED) then Raise PermissionDenied
  else Ok node.
End NodeDelete.

(** ** Events of a node (views/nodes.py, lines 519-520, 607-613, 639-641) *)

(** [Event.objects.filter(node=node)] over the rows of the event table. *)
Definition events_of_node (events : list Event) (node : Node) : list Event :=
  filter (λ e, event_node e = Some (system_id node)) events.

(** [.exclude(type__level=level)] *)
Definition exclude_level (level : Z) (events : list Event) : list Event :=
  filter (λ e, type_level e ≠ level) events.

(** [.order_by('-id')] *)
Definition order_by_minus_id (events : list Event) : list Event :=
  Py.sorted (λ e, - event_id e) events.

Definition number_of_events_shown : nat := 5.

(** The two entries [get_context_data] of [NodeView] puts in the context. *)
Definition NodeView_event_list (events : list Event) (node : Node)
    : list Event :=
  take number_of_events_shown
    (order_by_minus_id (exclude_level logging_DEBUG (events_of_node events node))).

Definition NodeView_event_count (events : list Event) (node : Node) : nat :=
  length (events_of_node events node).

Definition NodeEventListView_get_queryset (events : list Event) (node : Node)
    : list Event :=
  order_by_minus_id (events_of_node events node).

(** ** Migration 0240: [fix_ownerdata_keys] *)

(** A row of the table of [OwnerData]: the node it belongs to, its key
    and its value. *)
Record OwnerData := {
  node_id : Z;
  key : string;
  value : string;
}.

(** The expression [[\w.-]] is evaluated twice, by two engines: the
    database evaluates [key__regex] to select the rows, and Python
    evaluates [REPLACE_RE] to replace the characters.  What [\w] holds
    beyond the letters and digits of ASCII and the underscore depends on
    the engine: for the database on its locale, which is no part of the
    migration, so its reading of [\w] is a parameter, [db_word], of what
    follows; for Python 3 on the Unicode tables, and [python_word] is its
    reading on the code points below 256. *)

(** The word characters of ASCII: the letters, the digits and the
    underscore. *)
Definition ascii_word (c : ascii) : bool :=
  let n := N_of_ascii c in
  (((48 <=? n) && (n <=? 57)) || ((65 <=? n) && (n <=? 90)) ||
   ((97 <=? n) && (n <=? 122)) || (n =? 95))%N.

(** [\w] as Python 3 reads it in a pattern on text, on the code points
    below 256: the word characters of ASCII, the letters of Latin-1 (the
    two ordinal indicators, the micro sign, and the accented letters
    without the multiplication and division signs), its superscript
    digits and its three fractions. *)
Definition python_word (c : ascii) : bool :=
  let n := N_of_ascii c in
  ascii_word c ||
  ((n =? 170) || ((178 <=? n) && (n <=? 179)) || (n =? 181) ||
   ((185 <=? n) && (n <=? 186)) || ((188 <=? n) && (n <=? 190)) ||
   ((192 <=? n) && (n <=? 214)) || ((216 <=? n) && (n <=? 246)) ||
   ((248 <=? n) && (n <=? 255)))%N.

(** A reading of [\w] is the usual one on the characters of ASCII. *)
Definition reads_ascii (word : ascii → bool) : Prop :=
  ∀ c : ascii, (N_of_ascii c < 128)%N → word c = ascii_word c.

(** The class [[\w.-]] under a reading of [\w]. *)
Definition key_char (word : ascii → bool) (c : ascii) : bool :=
  word c || Ascii.eqb c "." || Ascii.eqb c "-".

Fixpoint all_key_chars (word : ascii → bool) (s : string) : bool :=
  match s with
  | String c rest => key_char word c && all_key_chars word rest
  | EmptyString => true
  end.

(** [key__regex=r"^[\w.-]+$"], evaluated by the database: one or more
    characters, all of the class. *)
Definition key_regex (db_word : ascii → bool) (s : string) : bool :=
  negb (Py.is_empty s) && all_key_chars db_word s.

(** [REPLACE_RE.sub(repl, s)] with [REPLACE_RE = re.compile(r"[^\w.-]")],
    evaluated by Python: every character outside the class is replaced
    by [repl]. *)
Fixpoint REPLACE_RE_sub (repl : string) (s : string) : string :=
  match s with
  | String c rest =>
      if key_char python_word c then String c (REPLACE_RE_sub repl rest)
      else repl +:+ REPLACE_RE_sub repl rest
  | EmptyString => EmptyString
  end.

(** The dictionary [existing_node_keys]: for each node, the set of the
    keys of its rows. *)
Definition existing_node_keys (table : list OwnerData) : gmap Z (gset string) :=
  foldr (λ row m,
           <[node_id row := {[key row]} ∪ default ∅ (m !! node_id row)]> m)
        ∅ table.

(** [while new_key in node_keys: new_key += "_"], cut after [bound]
    tests. *)
Fixpoint while_in (bound : nat) (node_keys : gset string) (new_key : string)
    : result string :=
  match bound with
  | O => Raise LoopBound
  | S bound' =>
      if decide (new_key ∈ node_keys)
      then while_in bound' node_keys (new_key +:+ "_")
      else Ok new_key
  end.

(** The body of the [for entry in ...] loop on one selected row: the
    state is the dictionary, the result the dictionary and the row as it
    is saved.  [node_keys] is the set the dictionary holds, not a copy, so
    what is removed from it and added to it is written back to the
    dictionary.  [existing_node_keys[...]] and [remove] raise [KeyError]
    when the node or the key is not there. *)
Definition fix_entry (keys : gmap Z (gset string)) (entry : OwnerData)
    : result (gmap Z (gset string) * OwnerData) :=
  let orig_key := key entry in
  node_keys ← from_option Ok (Raise KeyError) (keys !! node_id entry);
  node_keys ← (if decide (orig_key ∈ node_keys)
               then Ok (node_keys ∖ {[orig_key]}) else Raise KeyError);
  let new_key := REPLACE_RE_sub "_" (key entry) in
  new_key ← while_in (S (size node_keys)) node_keys new_key;
  let node_keys := node_keys ∪ {[new_key]} in
  Ok (<[node_id entry := node_keys]> keys,
      {| node_id := node_id entry; key := new_key; value := value entry |}).

(** The loop over the rows of the table: the rows whose key matches the
    expression, as the database evaluates it, are not selected and stay as
    they are. *)
Fixpoint fix_entries (db_word : ascii → bool) (keys : gmap Z (gset string))
    (table : list OwnerData) : result (list OwnerData) :=
  match table with
  | [] => Ok []
  | entry :: rest =>
      if key_regex db_word (key entry) then
        rest' ← fix_entries db_word keys rest; Ok (entry :: rest')
      else
        '(keys', entry') ← fix_entry keys entry;
        rest' ← fix_entries db_word keys' rest; Ok (entry' :: rest')
  end.

(** The table after the migration. *)
Definition fix_ownerdata_keys (db_word : ascii → bool) (table : list OwnerData)
    : result (list OwnerData) :=
  fix_entries db_word (existing_node_keys table) table.

(** ** Migration 0245: the unique index on the table of BMCs *)

Record BMC := {
  power_type : string;
  (** [power_parameters::text] *)
  power_parameters : string;
}.

(** [CREATE UNIQUE INDEX ... ON table (columns) WHERE predicate]: the
    indexed expressions and the predicate of a partial unique index, and
    what it means for a table to satisfy it: among the rows the predicate
    selects, no two rows have the same indexed values. *)
Record UniqueIndex (Row Key : Type) := {
  index_on : Row → Key;
  index_where : Row → bool;
}.
Arguments index_on {Row Key} _ _.
Arguments index_where {Row Key} _ _.

Definition satisfies {Row Key} (idx : UniqueIndex Row Key) (table : list Row)
    : Prop :=
  NoDup (index_on idx <$> filter (λ r, index_where idx r = true) table).

Section BMCIndex.
(** The function [md5] of the database. *)
Variable md5 : string → string.

(** [ON maasserver_bmc (power_type, md5(power_parameters::text))
    WHERE (power_type != 'manual')] *)
Definition maasserver_bmc_power_type_parameters_idx
    : UniqueIndex BMC (string * string) :=
  {| index_on := λ bmc, (power_type bmc, md5 (power_parameters bmc));
     index_where := λ bmc, negb (String.eqb (power_type bmc) "manual") |}.
End BMCIndex.

(** ** Definitions the statements below are phrased with *)

(** The sentence list the specification describes for
    [message_from_form_stats]: the buckets with a count other than zero,
    in the order done, not actionable, not permitted; the singular
    template for a count of one, the plural one otherwise; the full name
    of the action in the first sentence and [It] in the others. *)
Definition pick_template (templates : string * string) (number : Z) : string :=
  if decide (number = 1) then templates.1 else templates.2.

Definition full_action_name (action : Action) : string :=
  "The action " +:+ Py.dquote +:+ display_bulk action +:+ Py.dquote.

Definition described_sentences (action : Action)
    (done not_actionable not_permitted : Z) : list string :=
  let buckets :=
    filter (λ b : Z * (string * string), b.1 ≠ 0)
      [(done, done_templates);
       (not_actionable, not_actionable_templates);
       (not_permitted, not_permitted_templates)] in
  let subjects := full_action_name action :: replicate (length buckets - 1) "It" in
  zip_with (λ subject b, Py.format (pick_template b.2 b.1)
                           [Py.ArgS subject; Py.ArgD b.1])
           subjects buckets.

(** The text with its white space removed. *)
Fixpoint without_spaces (s : string) : string :=
  match s with
  | String c rest =>
      if Py.is_space c then without_spaces rest
      else String c (without_spaces rest)
  | EmptyString => EmptyString
  end.

(** The character occurs in the text. *)
Fixpoint occurs (c : ascii) (s : string) : bool :=
  match s with
  | String d rest => Ascii.eqb d c || occurs c rest
  | EmptyString => false
  end.

Fixpoint has_space (s : string) : bool :=
  match s with
  | String c rest => Py.is_space c || has_space rest
  | EmptyString => false
  end.

Fixpoint concat_all (l : list string) : string :=
  match l with
  | [] => EmptyString
  | x :: rest => x +:+ concat_all rest
  end.

(** What the specification says becomes of one token. *)
Definition described_constraint (token : string) : option string :=
  match Py.partition "=" token with
  | None => Some (token +:+ "=")
  | Some (key, value) =>
      if decide (value = "any") then None else Some (key +:+ "=" +:+ value)
  end.

(** The error text of a rejected form: [field: error, error] for each
    field, separated by commas. *)
Definition described_query_error (errs : list (string * list string)) : string :=
  Py.join ", " (map (λ fe, fe.1 +:+ ": " +:+ Py.join ", " fe.2) errs).

(** [n] underscores. *)
Fixpoint underscores (n : nat) : string :=
  match n with
  | O => EmptyString
  | S n' => "_" +:+ underscores n'
  end.

(** The set of the keys of the rows of one node. *)
Definition node_keys_of (table : list OwnerData) (n : Z) : gset string :=
  list_to_set (key <$> filter (λ row, node_id row = n) table).

(** No node has two rows with the same key. *)
Definition keys_distinct (table : list OwnerData) : Prop :=
  NoDup ((λ row, (node_id row, key row)) <$> table).

Definition example_node : Node :=
  {| system_id := "node-1"; status := READY;
     macaddress_set :=
       [ {| mac_address := "aa:bb:cc:dd:ee:02"; created := 20 |};
         {| mac_address := "aa:bb:cc:dd:ee:01"; created := 10 |};
         {| mac_address := "aa:bb:cc:dd:ee:03"; created := 30 |} ];
     primary_mac := None; primary_mac_vendor := None; extra_macs := [] |}.

Definition example_events : list Event :=
  [ {| event_id := 1; event_node := Some "node-1"; type_level := 20 |};
    {| event_id := 2; event_node := Some "node-1"; type_level := 10 |};
    {| event_id := 3; event_node := Some "node-2"; type_level := 20 |};
    {| event_id := 4; event_node := Some "node-1"; type_level := 10 |};
    {| event_id := 5; event_node := Some "node-1"; type_level := 40 |};
    {| event_id := 6; event_node := None; type_level := 20 |};
    {| event_id := 7; event_node := Some "node-1"; type_level := 20 |};
    {| event_id := 8; event_node := Some "node-1"; type_level := 30 |};
    {| event_id := 9; event_node := Some "node-1"; type_level := 20 |};
    {| event_id := 10; event_node := Some "node-1"; type_level := 20 |};
    {| event_id := 11; event_node := Some "node-1"; type_level := 10 |} ].

(** The order of a list sorted by [key]. *)
Definition key_le {A} (key : A → Z) (x y : A) : Prop := key x ≤ key y.

(** The order of descending id. *)
Definition newer_first (a b : Event) : Prop := event_id b ≤ event_id a.

Definition example_allocated_node : Node :=
  {| system_id := "node-2"; status := ALLOCATED; macaddress_set := [];
     primary_mac := None; primary_mac_vendor := None; extra_macs := [] |}.

Definition permission_rank (perm : NODE_PERMISSION) : nat :=
  match perm with VIEW => 0 | EDIT => 1 | ADMIN => 2 end.

(** A lookup for [NodeDelete]: a user is the permission level it has on
    every node; the node table has one ready node and one allocated node;
    a user below the level asked for is refused and an unknown
    [system_id] is not found. *)
Definition example_get_node_or_404 (system_id' : option string)
    (user : NODE_PERMISSION) (perm : NODE_PERMISSION) : result Node :=
  match find (λ n, bool_decide (Some (system_id n) = system_id'))
             [example_node; example_allocated_node] with
  | None => Raise Http404
  | Some node =>
      if (permission_rank perm <=? permission_rank user)%nat then Ok node
      else Raise PermissionDenied
  end.

(** A form that rejects every query, with errors on two fields, and a
    form that accepts every query and keeps the ready nodes. *)
Definition example_rejecting_form : Form :=
  {| is_valid := false;
     errors := [("arch", ["Architecture not recognised."]);
                ("mem", ["Invalid memory: number of MiB required.";
                         "Enter a number."])];
     filter_nodes := λ nodes, nodes |}.

Definition example_accepting_form : Form :=
  {| is_valid := true;
     errors := [];
     filter_nodes := filter (λ n, status n = READY) |}.

Definition example_view (q : string) : NodeListView :=
  {| query := Some q; query_error := None; sort_by := None; sort_dir := None |}.

(** Two BMCs of power type [manual] with the same parameters, and two
    BMCs of power type [ipmi] whose parameters differ. *)
Definition manual_bmcs : list BMC :=
  [ {| power_type := "manual"; power_parameters := "{}" |};
    {| power_type := "manual"; power_parameters := "{}" |} ].

Definition ipmi_bmcs : list BMC :=
  [ {| power_type := "ipmi"; power_parameters := "{power_address: 10.0.0.1}" |};
    {| power_type := "ipmi"; power_parameters := "{power_address: 10.0.0.2}" |} ].

(** The dictionary holds, for every node with rows, the set of the keys
    of its rows, and nothing for the other nodes. *)
Definition keys_agree (keys : gmap Z (gset string)) (table : list OwnerData)
    : Prop :=
  ∀ n, keys !! n = if decide (n ∈ node_id <$> table)
                   then Some (node_keys_of table n) else None.

(** How the migration relates a row to the row it saves in its place,
    given the other rows of the table as they are when the row is
    processed. *)
Definition rewritten (db_word : ascii → bool) (others : list OwnerData)
    (row row' : OwnerData) : Prop :=
  node_id row' = node_id row ∧ value row' = value row ∧
  if key_regex db_word (key row) then key row' = key row
  else ∃ n : nat,
    key row' = REPLACE_RE_sub "_" (key row) +:+ underscores n
    ∧ (key row' ∉ node_keys_of others (node_id row))
    ∧ ∀ m : nat, (m < n)%nat →
        REPLACE_RE_sub "_" (key row) +:+ underscores m
        ∈ node_keys_of others (node_id row).

(** The character a character of a key is replaced by. *)
Definition replaced_char (c : ascii) : ascii :=
  if key_char python_word c then c else "_"%char.

(** A table with the keys of the example of the specification, on node 1,
    and a table whose only row has the empty key. *)
Definition bad_key_table : list OwnerData :=
  [ {| node_id := 1; key := "bad key!"; value := "a" |};
    {| node_id := 1; key := "bad_key_"; value := "b" |};
    {| node_id := 2; key := "bad_key_"; value := "c" |} ].

Definition empty_key_table : list OwnerData :=
  [ {| node_id := 1; key := EmptyString; value := "a" |} ].

(** The keys at least as long as [k]: each turn of the loop leaves one of
    them behind. *)
Definition not_shorter (keys : gset string) (k : string) : gset string :=
  filter (λ s, (String.length k ≤ String.length s)%nat) keys.

(** ** Further functions of views/nodes.py *)

(** [sorted(l, key=key, reverse=reverse)] for keys compared with [le]: the
    stable sort by insertion from the right.  With [reverse] the
    comparison is turned round and elements of equal key still keep the
    order they had. *)
Fixpoint insert_le {A} (le : A → A → bool) (x : A) (l : list A) : list A :=
  match l with
  | [] => [x]
  | y :: rest =>
      if le x y then x :: y :: rest else y :: insert_le le x rest
  end.

Definition sorted_le {A} (le : A → A → bool) (l : list A) : list A :=
  foldr (insert_le le) [] l.

Definition sorted_key {A K} (le : K → K → bool) (key : A → K) (reverse : bool)
    (l : list A) : list A :=
  sorted_le (λ x y, if reverse then le (key y) (key x) else le (key x) (key y)) l.

(** The order of Python 2 on [None] and text: [None] is below every text
    and texts compare character by character. *)
Definition option_string_le (a b : option string) : bool :=
  match a, b with
  | None, _ => true
  | Some _, None => false
  | Some s, Some t => String.leb s t
  end.

(** [NodeListView.sort_fields] and [NodeListView.late_sort_fields]
    (lines 223-226). *)
Definition sort_fields : list string :=
  ["hostname"; "status"; "owner"; "cpu_count"; "memory"; "storage"; "zone"].

Definition late_sort_fields : list string := ["primary_mac"].

(** [NodeListView._compose_sort_order] (lines 300-314). *)
Definition _compose_sort_order (self : NodeListView) : list string :=
  let order_by :=
    match sort_by self with
    | Some field =>
        if decide (field ∈ sort_fields) then
          let custom_order := field in
          let custom_order :=
            if decide (sort_dir self = Some "desc")
            then Py.format "-%s" [Py.ArgS custom_order]
            else custom_order in
          [custom_order]
        else []
    | None => []
    end in
  order_by ++ ["-created"].

(** [NodeListView.late_sort] (lines 372-383) on the entry [node_list] of
    the context, the only one it reads and writes.  The only late sort
    field is [primary_mac], so [attrgetter(self.sort_by)] is the attribute
    [primary_mac]. *)
Definition late_sort (self : NodeListView) (node_list : list Node) : list Node :=
  let reverse := bool_decide (sort_dir self = Some "desc") in
  match sort_by self with
  | Some field =>
      if decide (field ∈ late_sort_fields)
      then sorted_key option_string_le primary_mac reverse node_list
      else node_list
  | None => node_list
  end.

(** [unicode(x)] for [x] a text or [None]. *)
Definition str_of_option (x : option string) : string :=
  match x with
  | Some s => s
  | None => "None"
  end.

(** [NodeListView._prepare_sort_links] (lines 347-370).  The parameters of
    the request are a [QueryDict]: a dictionary from a name to the list of
    its values, where [params[name] = value] makes [value] the only value
    of [name]. *)
Section PrepareSortLinks.
(** [QueryDict.urlencode] of Django. *)
Variable urlencode : gmap string (list string) → string.

(** The body of the [for field in fields] loop; the state is [params],
    [links] and [classes].  [links[field] += ...] reads [links[field]],
    which raises [KeyError] for a missing field. *)
Definition sort_link_step (self : NodeListView) (reverse_dir : string)
    (st : gmap string (list string) * gmap string string * gmap string string)
    (field : string)
    : result (gmap string (list string) * gmap string string * gmap string string) :=
  let '(params, links, classes) := st in
  let params := <["sort" := [field]]> params in
  let '(params, classes) :=
    if decide (Some field = sort_by self) then
      (<["dir" := [reverse_dir]]> params,
       <[field := Py.format "sort-%s" [Py.ArgS (str_of_option (sort_dir self))]]>
         classes)
    else (<["dir" := ["asc"]]> params, classes) in
  link ← from_option Ok (Raise KeyError) (links !! field);
  Ok (params, <[field := link +:+ urlencode params]> links, classes).

Fixpoint sort_link_loop (self : NodeListView) (reverse_dir : string)
    (st : gmap string (list string) * gmap string string * gmap string string)
    (fields : list string)
    : result (gmap string (list string) * gmap string string * gmap string string) :=
  match fields with
  | [] => Ok st
  | field :: rest =>
      st' ← sort_link_step self reverse_dir st field;
      sort_link_loop self reverse_dir st' rest
  end.

Definition _prepare_sort_links (self : NodeListView)
    (GET : gmap string (list string))
    : result (gmap string string * gmap string string) :=
  let fields := sort_fields ++ late_sort_fields in
  let links : gmap string string := list_to_map ((λ field, (field, "?")) <$> fields) in
  let classes : gmap string string :=
    list_to_map ((λ field, (field, "sort-none")) <$> fields) in
  let params := GET in
  let reverse_dir := if decide (sort_dir self = Some "desc") then "asc" else "desc" in
  '(_, links, classes) ← sort_link_loop self reverse_dir (params, links, classes) fields;
  Ok (links, classes).
End PrepareSortLinks.

(** The parameters the link of a field carries: those of the request with
    [sort] set to the field and [dir] set to the direction of the link. *)
Definition link_params (GET : gmap string (list string)) (field dir : string)
    : gmap string (list string) :=
  <["dir" := [dir]]> (<["sort" := [field]]> GET).

(** The direction of the link of a field: the opposite of the current
    direction for the field the view sorts by, [asc] for the others. *)
Definition link_dir (self : NodeListView) (field : string) : string :=
  if decide (sort_by self = Some field)
  then (if decide (sort_dir self = Some "desc") then "asc" else "desc")
  else "asc".

(** The CSS class of a field. *)
Definition link_class (self : NodeListView) (field : string) : string :=
  if decide (sort_by self = Some field)
  then "sort-" +:+ str_of_option (sort_dir self)
  else "sort-none".

(** The one-character text made of a line feed. *)
Definition newline : string := String "010"%char EmptyString.

(** [generate_js_power_types] (lines 175-186).  [get_power_types] is a
    function of the cluster RPC; it returns a dictionary, of which the
    function reads the keys, here a list in the order of the dictionary. *)
Section PowerTypes.
Context {NodeGroup : Type}.
Variable get_power_types : option (list NodeGroup) → list string.

Definition generate_js_power_types (nodegroup : option NodeGroup) : string :=
  let nodegroup :=
    match nodegroup with
    | Some ng => Some [ng]
    | None => None
    end in
  let power_types := get_power_types nodegroup in
  let names :=
    map (λ power_type,
           Py.format (Py.dquote +:+ "%s" +:+ Py.dquote) [Py.ArgS power_type])
        (sorted_le String.leb power_types) in
  Py.format ("[" +:+ newline +:+ "%s" +:+ newline +:+ "]")
    [Py.ArgS (Py.join ("," +:+ newline) names)].
End PowerTypes.

(** [s.replace(old, new)] for a one-character [old]. *)
Fixpoint replace_char (old : ascii) (new : string) (s : string) : string :=
  match s with
  | String c rest =>
      if Ascii.eqb c old then new +:+ replace_char old new rest
      else String c (replace_char old new rest)
  | EmptyString => EmptyString
  end.

(** [cgi.escape(s, quote)] of the Python library. *)
Definition escape (s : string) (quote : bool) : string :=
  let s := replace_char "&" "&amp;" s in
  let s := replace_char "<" "&lt;" s in
  let s := replace_char ">" "&gt;" s in
  if quote then replace_char "034" "&quot;" s else s.

(** The two notices (lines 473-482), as [dedent] leaves them. *)
Definition THIRD_PARTY_DRIVERS_NOTICE : string :=
  newline +:+
  "Third party drivers may be used when booting or installing nodes." +:+
  newline +:+
  "These may be proprietary and closed-source." +:+ newline.

Definition THIRD_PARTY_DRIVERS_ADMIN_NOTICE : string :=
  newline +:+
  "The installation of third party drivers can be disabled on the <a" +:+
  newline +:+
  "href=" +:+ Py.dquote +:+ "%s#third_party_drivers" +:+ Py.dquote +:+
  ">settings</a> page." +:+ newline.

(** [construct_third_party_drivers_notice] (lines 491-506);
    [settings_url] is [reverse("settings")]. *)
Definition construct_third_party_drivers_notice (settings_url : string)
    (user_is_admin : bool) : string :=
  if user_is_admin then
    THIRD_PARTY_DRIVERS_NOTICE +:+
    Py.format THIRD_PARTY_DRIVERS_ADMIN_NOTICE
      [Py.ArgS (escape settings_url true)]
  else THIRD_PARTY_DRIVERS_NOTICE.

(** The installation results in [NodeView.get_context_data] (lines
    593-601).  A result is read and written through its name only. *)
Record NodeResult := {
  result_name : string;
  result_data : string;
}.

(** [re.sub('[_.]', ' ', name)]: every underscore and every dot is
    replaced by a space. *)
Fixpoint sub_underscore_dot (name : string) : string :=
  match name with
  | String c rest =>
      if Ascii.eqb c "_" || Ascii.eqb c "."
      then " " +:+ sub_underscore_dot rest
      else String c (sub_underscore_dot rest)
  | EmptyString => EmptyString
  end.

Definition set_result_name (result : NodeResult) (name : string) : NodeResult :=
  {| result_name := name; result_data := result_data result |}.

(** The entry [nodeinstallresults] of the context, when it is set. *)
Definition nodeinstallresults (installation_results : list NodeResult)
    : option (list NodeResult) :=
  if (1 <? length installation_results)%nat then
    Some (map (λ result,
                 set_result_name result (sub_underscore_dot (result_name result)))
              installation_results)
  else if (length installation_results =? 1)%nat then
    match installation_results with
    | first :: rest => Some (set_result_name first "install log" :: rest)
    | [] => None
    end
  else None.

(** [NodeListView.get_queryset] (lines 338-345).  [get_nodes] is the node
    manager's and [order_by] the query set's; [prefetch_nodes_listing]
    (lines 160-172) asks for related rows to be fetched with the nodes and
    returns the same nodes. *)
Definition prefetch_nodes_listing (nodes_query : list Node) : list Node :=
  nodes_query.

Section GetQueryset.
Context {QD User : Type} (QueryDict : string → QD).
Variable AcquireNodeForm_Strict : QD → Form.
Variable rename_fields : Form → Form.
Variable registration_org : string → option string.
Variable get_nodes : User → NODE_PERMISSION → list Node.
Variable order_by : list string → list Node → list Node.

Definition get_queryset (self : NodeListView) (user : User)
    : result (NodeListView * list Node) :=
  let nodes := get_nodes user VIEW in
  let nodes := order_by (_compose_sort_order self) nodes in
  '(self, nodes) ←
    (if bool_decide (query self ≠ None ∧ query self ≠ Some EmptyString)
     then _constrain_nodes QueryDict AcquireNodeForm_Strict rename_fields
            self nodes
     else Ok (self, nodes));
  let nodes := prefetch_nodes_listing nodes in
  Ok (self, configure_macs registration_org nodes).
End GetQueryset.

(** The text before and the text after the address of the settings page
    in the notice for an administrator. *)
Definition admin_notice_before : string :=
  newline +:+
  "The installation of third party drivers can be disabled on the <a" +:+
  newline +:+ "href=" +:+ Py.dquote.

Definition admin_notice_after : string :=
  "#third_party_drivers" +:+ Py.dquote +:+ ">settings</a> page." +:+ newline.

(** Two enumerations of the same power types. *)
Definition example_power_types (_ : option (list unit)) : list string :=
  ["virsh"; "ipmi"; "amt"; "ether_wake"].

Definition example_power_types' (_ : option (list unit)) : list string :=
  ["amt"; "virsh"; "ether_wake"; "ipmi"].

(** The rows of one node. *)
Definition rows_of_node (n : Z) (table : list OwnerData) : list OwnerData :=
  filter (λ row, node_id row = n) table.

(** A key is as the migration leaves it: the database does not select it
    or Python has nothing to replace in it. *)
Definition key_settled (db_word : ascii → bool) (row : OwnerData) : Prop :=
  key_regex db_word (key row) = true
  ∨ REPLACE_RE_sub "_" (key row) = key row.

(** A reading of [\w] by a database that takes the letters of Latin-1 for
    word characters and its superscript digits and fractions for none. *)
Definition latin1_letters_word (c : ascii) : bool :=
  let n := N_of_ascii c in
  ascii_word c ||
  ((n =? 170) || (n =? 181) || (n =? 186) ||
   ((192 <=? n) && (n <=? 214)) || ((216 <=? n) && (n <=? 246)) ||
   ((248 <=? n) && (n <=? 255)))%N.

(** The keys [m] followed by the superscript two and [e] with an acute
    accent, on a table of their own. *)
Definition superscript_key : string :=
  String "m" (String "178" EmptyString).

Definition accent_key : string := String "233" EmptyString.

Definition latin1_key_table : list OwnerData :=
  [ {| node_id := 1; key := superscript_key; value := "a" |};
    {| node_id := 1; key := accent_key; value := "b" |} ].

(** A table where node 1 has the key [a b] twice. *)
Definition duplicate_key_table : list OwnerData :=
  [ {| node_id := 1; key := "a b"; value := "x" |};
    {| node_id := 1; key := "a b"; value := "y" |} ].

(** A node with two MACs created at the same time, after a younger one. *)
Definition example_tied_node : Node :=
  {| system_id := "node-3"; status := READY;
     macaddress_set :=
       [ {| mac_address := "aa:bb:cc:dd:ee:09"; created := 30 |};
         {| mac_address := "aa:bb:cc:dd:ee:07"; created := 10 |};
         {| mac_address := "aa:bb:cc:dd:ee:08"; created := 10 |} ];
     primary_mac := None; primary_mac_vendor := None; extra_macs := [] |}.

(** A table whose keys all match the expression for a database that reads
    the letters of Latin-1 as word characters, with a key twice on a
    node. *)
Definition clean_table : list OwnerData :=
  [ {| node_id := 1; key := "rack.position"; value := "4" |};
    {| node_id := 1; key := "asset-tag"; value := "x" |};
    {| node_id := 1; key := "asset-tag"; value := "y" |};
    {| node_id := 2; key := "caf" +:+ accent_key; value := "z" |} ].

(** The character [re.sub('[_.]', ' ', name)] puts in the place of a
    character of the name: a space for an underscore or a dot, the
    character itself otherwise. *)
Definition underscore_dot_to_space (c : ascii) : ascii :=
  if Ascii.eqb c "_" || Ascii.eqb c "." then " "%char else c.

(* ================================================================== *)
(** * Part II: statements and proofs *)
(* ================================================================== *)

(** ** Formatting *)

Lemma format_action_name (a : string) :
  Py.format ("The action " +:+ Py.dquote +:+ "%s" +:+ Py.dquote) [Py.ArgS a]
  = "The action " +:+ Py.dquote +:+ a +:+ Py.dquote.
Proof. reflexivity. Qed.

Lemma string_app_cons (c : ascii) (s t : string) :
  String c s +:+ t = String c (s +:+ t).
Proof. reflexivity. Qed.

Lemma string_app_empty_l (s : string) : EmptyString +:+ s = s.
Proof. reflexivity. Qed.

Lemma string_app_empty_r (s : string) : s +:+ EmptyString = s.
Proof.
  induction s as [|c s IH]; [done|]. by rewrite string_app_cons, IH.
Qed.

Lemma string_app_assoc (s t u : string) : (s +:+ t) +:+ u = s +:+ t +:+ u.
Proof.
  induction s as [|c s IH]; [done|]. by rewrite !string_app_cons, IH.
Qed.

Lemma string_app_length (s t : string) :
  String.length (s +:+ t) = (String.length s + String.length t)%nat.
Proof.
  induction s as [|c s IH]; [done|]. rewrite string_app_cons. cbn. by rewrite IH.
Qed.

Lemma format_percent_s (s : string) : Py.format "%s" [Py.ArgS s] = s.
Proof. cbn. apply string_app_empty_r. Qed.

(** ** [message_from_form_stats] *)

(** C1. For every action and every triple of counts the message is the
    sentences of the buckets with a nonzero count, in the order done, not
    actionable, not permitted, joined by a space; the singular template is
    used for a count of one and the plural otherwise; the first sentence
    names the action in full and the others start with [It].  For the
    counts (2, 1, 0) and the action "Power on" the message is the one the
    specification gives. *)
Theorem message_from_form_stats_described :
  (∀ (action : Action) (done not_actionable not_permitted : Z),
     message_from_form_stats action done not_actionable not_permitted
     = Py.join " " (described_sentences action done not_actionable not_permitted))
  ∧ (∀ (subject : string) (n : Z),
       Py.format (pick_template done_templates n) [Py.ArgS subject; Py.ArgD n]
       = subject +:+ " was successfully performed on " +:+ pretty n +:+
         (if decide (n = 1) then " node." else " nodes.")
       ∧ Py.format (pick_template not_actionable_templates n)
           [Py.ArgS subject; Py.ArgD n]
         = subject +:+ " could not be performed on " +:+ pretty n +:+
           (if decide (n = 1)
            then " node because its state does not allow that action."
            else " nodes because their state does not allow that action.")
       ∧ Py.format (pick_template not_permitted_templates n)
           [Py.ArgS subject; Py.ArgD n]
         = subject +:+ " could not be performed on " +:+ pretty n +:+
           (if decide (n = 1)
            then " node because that action is not permitted on that node."
            else " nodes because that action is not permitted on these nodes."))
  ∧ message_from_form_stats {| display_bulk := "Power on" |} 2 1 0
    = "The action " +:+ Py.dquote +:+ "Power on" +:+ Py.dquote +:+
      " was successfully performed on 2 nodes. " +:+
      "It could not be performed on 1 node because its state does not " +:+
      "allow that action.".
Proof.
  split; [|split; [|reflexivity]].
  - intros action d na np.
    unfold message_from_form_stats, described_sentences.
    rewrite format_action_name. fold (full_action_name action).
    generalize (full_action_name action) as name. intros name.
    destruct done_templates as [s1 p1], not_actionable_templates as [s2 p2],
             not_permitted_templates as [s3 p3].
    cbn [fold_left]. unfold message_step, pick_template.
    rewrite !filter_cons, filter_nil. cbn [fst snd].
    destruct (Z.eqb_spec d 0) as [->|Hd], (Z.eqb_spec na 0) as [->|Hna],
             (Z.eqb_spec np 0) as [->|Hnp];
      repeat case_decide; try done; cbn [negb app length replicate zip_with Nat.sub fst snd];
      repeat match goal with
             | |- context [Z.eqb ?x 1] => destruct (Z.eqb_spec x 1)
             end; repeat case_decide; done.
  - intros subject n. unfold pick_template.
    repeat split; case_decide; reflexivity.
Qed.

(** ** The stable sort *)

Section Sorted.
Context {A : Type} (key : A → Z).

Lemma insert_by_perm x l : Py.insert_by key x l ≡ₚ x :: l.
Proof.
  induction l as [|y l IH]; cbn; [done|].
  destruct (key x <=? key y); [done|].
  rewrite IH. apply Permutation_swap.
Qed.

Lemma sorted_perm l : Py.sorted key l ≡ₚ l.
Proof.
  induction l as [|x l IH]; cbn; [done|].
  fold (Py.sorted key l). by rewrite insert_by_perm, IH.
Qed.

Lemma insert_by_sorted x l :
  StronglySorted (key_le key) l → StronglySorted (key_le key) (Py.insert_by key x l).
Proof.
  induction 1 as [|y l Hs IH Hy]; cbn.
  - repeat constructor.
  - destruct (Z.leb_spec (key x) (key y)) as [Hle|Hlt].
    + constructor; [by constructor|].
      constructor; [done|].
      eapply Forall_impl; [exact Hy|]. unfold key_le. intros; lia.
    + constructor; [done|].
      rewrite insert_by_perm. constructor; [unfold key_le; lia|done].
Qed.

Lemma sorted_sorted l : StronglySorted (key_le key) (Py.sorted key l).
Proof.
  induction l as [|x l IH]; cbn; [constructor|].
  by apply insert_by_sorted.
Qed.

(** Sorting and selecting commute: the sort is stable. *)
Lemma filter_insert_by (P : A → Prop) `{∀ x, Decision (P x)} x l :
  StronglySorted (key_le key) l →
  filter P (Py.insert_by key x l)
  = if decide (P x) then Py.insert_by key x (filter P l) else filter P l.
Proof.
  induction 1 as [|y l Hs IH Hy]; cbn [Py.insert_by].
  - rewrite filter_cons, filter_nil. by case_decide.
  - destruct (Z.leb_spec (key x) (key y)) as [Hle|Hlt].
    + rewrite (filter_cons _ x). case_decide; [|done].
      rewrite (filter_cons _ y). case_decide; cbn [Py.insert_by].
      * by destruct (Z.leb_spec (key x) (key y)); [|lia].
      * assert (Hall : Forall (λ z, key x ≤ key z) (filter P l)).
        { apply Forall_forall. intros z [_ Hz]%list_elem_of_filter.
          rewrite Forall_forall in Hy. specialize (Hy z Hz).
          unfold key_le in Hy. lia. }
        destruct (filter P l) as [|z zs]; [done|]. cbn [Py.insert_by].
        apply Forall_cons_1 in Hall as [Hz _].
        by destruct (Z.leb_spec (key x) (key z)); [|lia].
    + rewrite (filter_cons _ y), IH, (filter_cons _ y).
      repeat case_decide; try done. cbn [Py.insert_by].
      by destruct (Z.leb_spec (key x) (key y)); [lia|].
Qed.

Lemma filter_sorted (P : A → Prop) `{∀ x, Decision (P x)} l :
  filter P (Py.sorted key l) = Py.sorted key (filter P l).
Proof.
  induction l as [|x l IH]; [done|].
  cbn [Py.sorted foldr]. fold (Py.sorted key l).
  rewrite filter_insert_by by apply sorted_sorted.
  rewrite filter_cons. case_decide; [|done].
  cbn [Py.sorted foldr]. fold (Py.sorted key (filter P l)). by rewrite IH.
Qed.
End Sorted.

(** ** [configure_macs] *)

(** C8. Every node [configure_macs] processes gets as [primary_mac] the
    address of a MAC of the node of earliest creation and as [extra_macs]
    the addresses of the other MACs in ascending order of creation; a
    node without MAC gets [None] as [primary_mac] and as
    [primary_mac_vendor] and an empty [extra_macs]. *)
Theorem configure_macs_primary_first
    (registration_org : string → option string) (nodes : list Node)
    (i : nat) (node : Node) :
  nodes !! i = Some node →
  ∃ node', configure_macs registration_org nodes !! i = Some node'
    ∧ match macaddress_set node with
      | [] =>
          primary_mac node' = None ∧ primary_mac_vendor node' = None
          ∧ extra_macs node' = []
      | _ :: _ =>
          ∃ (first : MACAddress) (others : list MACAddress),
            first :: others ≡ₚ macaddress_set node
            ∧ Forall (λ mac, created first ≤ created mac) (macaddress_set node)
            ∧ StronglySorted (key_le created) (first :: others)
            ∧ primary_mac node' = Some (mac_address first)
            ∧ primary_mac_vendor node'
              = Some (get_vendor_for_mac registration_org (mac_address first))
            ∧ extra_macs node' = mac_address <$> others
      end.
Proof.
  intros Hi. unfold configure_macs.
  exists (configure_macs_node registration_org node). split.
  { change (map ?f ?l) with (f <$> l). by rewrite list_lookup_fmap, Hi. }
  unfold configure_macs_node.
  pose proof (sorted_perm created (macaddress_set node)) as Hperm.
  pose proof (sorted_sorted created (macaddress_set node)) as Hsort.
  destruct (macaddress_set node) as [|m ms] eqn:Hmacs.
  - by cbn.
  - destruct (Py.sorted created (m :: ms)) as [|first others] eqn:Hs.
    { by apply Permutation_nil_cons in Hperm. }
    cbn [map]. rewrite format_percent_s.
    exists first, others. repeat split; try done.
    + rewrite <- Hperm. constructor; [lia|].
      by apply StronglySorted_inv in Hsort as [_ Hall].
    + cbn [extra_macs]. apply map_ext. intros mac. apply format_percent_s.
Qed.


Lemma configure_macs_primary_first_witness :
  ∃ node', configure_macs (λ _, None) [example_node] !! 0%nat = Some node'
    ∧ ∃ (first : MACAddress) (others : list MACAddress),
        first :: others ≡ₚ macaddress_set example_node
        ∧ Forall (λ mac, created first ≤ created mac) (macaddress_set example_node)
        ∧ StronglySorted (key_le created) (first :: others)
        ∧ primary_mac node' = Some (mac_address first)
        ∧ primary_mac_vendor node'
          = Some (get_vendor_for_mac (λ _, None) (mac_address first))
        ∧ extra_macs node' = mac_address <$> others.
Proof.
  exact (configure_macs_primary_first (λ _, None) [example_node] 0 example_node
           eq_refl).
Defined.

Example configure_macs_example :
  configure_macs (λ _, None) [example_node]
  = [ {| system_id := "node-1"; status := READY;
         macaddress_set := macaddress_set example_node;
         primary_mac := Some "aa:bb:cc:dd:ee:01";
         primary_mac_vendor := Some "Unknown Vendor";
         extra_macs := ["aa:bb:cc:dd:ee:02"; "aa:bb:cc:dd:ee:03"] |} ].
Proof. reflexivity. Qed.

(** ** Events of a node *)

Lemma order_by_minus_id_sorted (events : list Event) :
  StronglySorted newer_first (order_by_minus_id events).
Proof.
  pose proof (sorted_sorted (λ e, - event_id e) events) as Hs.
  unfold order_by_minus_id.
  induction Hs as [|e l Hs IH Hall]; constructor; [done|].
  eapply Forall_impl; [exact Hall|]. unfold key_le, newer_first. intros; lia.
Qed.

Lemma StronglySorted_take {A} (R : relation A) (n : nat) (l : list A) :
  StronglySorted R l → StronglySorted R (take n l).
Proof.
  intros Hs. revert n. induction Hs as [|x l Hs IH Hall]; intros [|n]; cbn;
    try constructor; [apply IH|].
  apply Forall_forall. intros y Hy. rewrite Forall_forall in Hall.
  apply Hall. revert Hy. apply subseteq_take.
Qed.

(** C9. The event list view of a node returns the events of that node,
    all of them and no other, by descending id; the event list of the
    node view is in descending id too, holds events of that node only, and
    is made of the first events of the former list that are not of level
    DEBUG. *)
Theorem node_events_newest_first (events : list Event) (node : Node) :
  NodeEventListView_get_queryset events node ≡ₚ events_of_node events node
  ∧ (∀ e, e ∈ NodeEventListView_get_queryset events node
          ↔ e ∈ events ∧ event_node e = Some (system_id node))
  ∧ StronglySorted newer_first
      (NodeEventListView_get_queryset events node)
  ∧ StronglySorted newer_first
      (NodeView_event_list events node)
  ∧ NodeView_event_list events node
    = take number_of_events_shown
        (exclude_level logging_DEBUG (NodeEventListView_get_queryset events node))
  ∧ (∀ e, e ∈ NodeView_event_list events node →
          e ∈ events ∧ event_node e = Some (system_id node)).
Proof.
  assert (Hperm : NodeEventListView_get_queryset events node
                  ≡ₚ events_of_node events node) by apply sorted_perm.
  assert (Hin : ∀ e, e ∈ NodeEventListView_get_queryset events node
                  ↔ e ∈ events ∧ event_node e = Some (system_id node)).
  { intros e. rewrite Hperm. unfold events_of_node.
    rewrite list_elem_of_filter. tauto. }
  assert (Heq : NodeView_event_list events node
    = take number_of_events_shown
        (exclude_level logging_DEBUG (NodeEventListView_get_queryset events node))).
  { unfold NodeView_event_list, NodeEventListView_get_queryset, exclude_level,
      order_by_minus_id. by rewrite filter_sorted. }
  split; [exact Hperm|]. split; [exact Hin|].
  split; [apply order_by_minus_id_sorted|].
  split; [apply StronglySorted_take, order_by_minus_id_sorted|].
  split; [exact Heq|].
  intros e He. rewrite Heq in He. apply subseteq_take in He.
  apply list_elem_of_filter in He as [_ He]. by apply Hin.
Qed.


Example node_events_example :
  event_id <$> NodeEventListView_get_queryset example_events example_node
  = [11; 10; 9; 8; 7; 5; 4; 2; 1]
  ∧ event_id <$> NodeView_event_list example_events example_node
    = [10; 9; 8; 7; 5]
  ∧ NodeView_event_count example_events example_node = 9%nat.
Proof. by vm_compute. Qed.


(** ** [NodeDelete.get_object] *)

(** C2. Whatever the lookup of the node manager does, and so for every
    actor and permission level: for a node whose status is ALLOCATED, when
    the lookup yields the node, as it does for an actor with the ADMIN
    permission, or refuses it with [PermissionDenied], [get_object] raises
    [PermissionDenied]; and in no case does [get_object] return the
    node. *)
Theorem delete_allocated_denied (User : Type)
    (get_node_or_404 : option string → User → NODE_PERMISSION → result Node)
    (kwargs_system_id : option string) (user : User) (node : Node) :
  status node = ALLOCATED →
  (get_node_or_404 kwargs_system_id user ADMIN = Ok node
   ∨ get_node_or_404 kwargs_system_id user ADMIN = Raise PermissionDenied →
   NodeDelete_get_object User get_node_or_404 kwargs_system_id user
   = Raise PermissionDenied)
  ∧ NodeDelete_get_object User get_node_or_404 kwargs_system_id user ≠ Ok node.
Proof.
  intros Hst. unfold NodeDelete_get_object. split.
  - intros [-> | ->]; cbn; [|done]. by rewrite decide_True.
  - destruct (get_node_or_404 _ _ _) as [n|e]; cbn; [|done].
    case_decide; [done|]. intros [= ->]. done.
Qed.

Lemma delete_allocated_denied_witness :
  (example_get_node_or_404 (Some "node-2") ADMIN ADMIN = Ok example_allocated_node
   ∨ example_get_node_or_404 (Some "node-2") ADMIN ADMIN = Raise PermissionDenied →
   NodeDelete_get_object NODE_PERMISSION example_get_node_or_404
     (Some "node-2") ADMIN = Raise PermissionDenied)
  ∧ NodeDelete_get_object NODE_PERMISSION example_get_node_or_404
      (Some "node-2") ADMIN ≠ Ok example_allocated_node.
Proof.
  exact (delete_allocated_denied NODE_PERMISSION example_get_node_or_404
           (Some "node-2") ADMIN example_allocated_node eq_refl).
Defined.

Example delete_examples :
  NodeDelete_get_object NODE_PERMISSION example_get_node_or_404
    (Some "node-2") ADMIN = Raise PermissionDenied
  ∧ NodeDelete_get_object NODE_PERMISSION example_get_node_or_404
      (Some "node-2") EDIT = Raise PermissionDenied
  ∧ NodeDelete_get_object NODE_PERMISSION example_get_node_or_404
      (Some "node-1") ADMIN = Ok example_node
  ∧ NodeDelete_get_object NODE_PERMISSION example_get_node_or_404
      (Some "node-9") ADMIN = Raise Http404.
Proof. by vm_compute. Qed.

(** ** [NodeListView._constrain_nodes] *)

Lemma format_field_errors (field errs : string) :
  Py.format "%s: %s" [Py.ArgS field; Py.ArgS errs] = field +:+ ": " +:+ errs.
Proof. cbn. by rewrite string_app_empty_r. Qed.

(** C4. For a view with a query: when the strict form rejects the parsed
    query, [_constrain_nodes] returns the empty node set, whatever the
    nodes it was given, and sets [query_error] to the errors of the form,
    field by field, the other attributes of the view staying as they are;
    when the form accepts it, [_constrain_nodes] returns what the filter
    of the form keeps of the nodes and leaves the view as it is. *)
Theorem constrain_nodes_fails_closed {QD : Type} (QueryDict : string → QD)
    (AcquireNodeForm_Strict : QD → Form) (rename_fields : Form → Form)
    (self : NodeListView) (q : string) (nodes_query : list Node) :
  query self = Some q →
  let form := rename_fields (AcquireNodeForm_Strict (_parse_constraints QueryDict q)) in
  _constrain_nodes QueryDict AcquireNodeForm_Strict rename_fields self nodes_query
  = if is_valid form
    then Ok (self, filter_nodes form nodes_query)
    else Ok ({| query := query self;
                query_error := Some (described_query_error (errors form));
                sort_by := sort_by self;
                sort_dir := sort_dir self |}, []).
Proof.
  intros Hq form. unfold _constrain_nodes, set_query_error.
  rewrite Hq. fold form.
  destruct (is_valid form); [done|].
  unfold described_query_error.
  rewrite (map_ext _ (λ fe : string * list string,
                        fe.1 +:+ ": " +:+ Py.join ", " fe.2)); [done|].
  intros [field errs]. apply format_field_errors.
Qed.

Lemma constrain_nodes_fails_closed_witness :
  _constrain_nodes (λ s, s) (λ _, example_rejecting_form) (λ f, f)
    (example_view "arch=vax mem=lots") [example_node; example_allocated_node]
  = Ok ({| query := Some "arch=vax mem=lots";
           query_error :=
             Some ("arch: Architecture not recognised., " +:+
                   "mem: Invalid memory: number of MiB required., Enter a number.");
           sort_by := None;
           sort_dir := None |},
        []).
Proof.
  exact (constrain_nodes_fails_closed (λ s, s) (λ _, example_rejecting_form)
           (λ f, f) (example_view "arch=vax mem=lots")
           "arch=vax mem=lots" [example_node; example_allocated_node] eq_refl).
Defined.

Example constrain_nodes_accepting :
  _constrain_nodes (λ s, s) (λ _, example_accepting_form) (λ f, f)
    (example_view "arch=amd64") [example_node; example_allocated_node]
  = Ok (example_view "arch=amd64", [example_node]).
Proof. by vm_compute. Qed.

(** ** The unique index on the table of BMCs *)

Lemma unique_index_distinct {Row Key} (idx : UniqueIndex Row Key)
    (table : list Row) (i j : nat) (r1 r2 : Row) :
  satisfies idx table → i ≠ j →
  table !! i = Some r1 → table !! j = Some r2 →
  index_where idx r1 = true → index_where idx r2 = true →
  index_on idx r1 ≠ index_on idx r2.
Proof.
  unfold satisfies. revert i j.
  induction table as [|r table IH]; intros i j Hnd Hij Hi Hj Hw1 Hw2; [done|].
  rewrite filter_cons in Hnd.
  assert (Hin : ∀ k r', table !! k = Some r' → index_where idx r' = true →
            index_on idx r' ∈ index_on idx <$> filter (λ r, index_where idx r = true) table).
  { intros k r' Hk Hw. apply list_elem_of_fmap_2, list_elem_of_filter.
    split; [done|]. by eapply list_elem_of_lookup_2. }
  destruct i as [|i], j as [|j]; cbn in Hi, Hj; simplify_eq.
  - rewrite decide_True in Hnd by done. rewrite fmap_cons in Hnd.
    apply NoDup_cons in Hnd as [Hnotin _].
    intros Heq. apply Hnotin. rewrite Heq. by eapply Hin.
  - rewrite decide_True in Hnd by done. rewrite fmap_cons in Hnd.
    apply NoDup_cons in Hnd as [Hnotin _].
    intros Heq. apply Hnotin. rewrite <- Heq. by eapply Hin.
  - apply (IH i j); try done; [|congruence].
    case_decide; [|done]. rewrite fmap_cons in Hnd.
    by apply NoDup_cons in Hnd as [_ ?].
Qed.

(** C7, as the index is declared.  The index is on the pair of the power
    type and the md5 of the text of the power parameters, and covers the
    rows whose power type is not [manual]: in a table that satisfies it,
    two rows with the same power type other than [manual] have power
    parameters with different md5, and so different power parameters. *)
Theorem bmc_unique_by_hash (md5 : string → string) (table : list BMC)
    (i j : nat) (b1 b2 : BMC) :
  satisfies (maasserver_bmc_power_type_parameters_idx md5) table →
  i ≠ j → table !! i = Some b1 → table !! j = Some b2 →
  power_type b1 ≠ "manual" →
  power_type b1 = power_type b2 →
  md5 (power_parameters b1) ≠ md5 (power_parameters b2)
  ∧ power_parameters b1 ≠ power_parameters b2.
Proof.
  intros Hsat Hij Hi Hj Hman Hty.
  assert (Hw : ∀ b, power_type b ≠ "manual" →
            index_where (maasserver_bmc_power_type_parameters_idx md5) b = true).
  { intros b Hb. cbn. by apply negb_true_iff, String.eqb_neq. }
  assert (Hman2 : power_type b2 ≠ "manual") by congruence.
  pose proof (unique_index_distinct _ table i j b1 b2 Hsat Hij Hi Hj
                (Hw _ Hman) (Hw _ Hman2)) as Hne.
  cbn in Hne.
  assert (Hmd5 : md5 (power_parameters b1) ≠ md5 (power_parameters b2))
    by congruence.
  split; [done|congruence].
Qed.

Lemma bmc_unique_by_hash_witness :
  (λ s : string, s) (power_parameters {| power_type := "ipmi";
       power_parameters := "{power_address: 10.0.0.1}" |})
  ≠ (λ s : string, s) (power_parameters {| power_type := "ipmi";
       power_parameters := "{power_address: 10.0.0.2}" |})
  ∧ power_parameters {| power_type := "ipmi";
       power_parameters := "{power_address: 10.0.0.1}" |}
    ≠ power_parameters {| power_type := "ipmi";
       power_parameters := "{power_address: 10.0.0.2}" |}.
Proof.
  apply (bmc_unique_by_hash (λ s, s) ipmi_bmcs 0 1).
  - unfold satisfies. by apply (bool_decide_unpack _).
  - lia.
  - reflexivity.
  - reflexivity.
  - by vm_compute.
  - reflexivity.
Defined.

(** C7, as the specification states it, fails: whatever [md5] is, the
    index accepts a table with two rows of power type [manual] and the
    same power parameters. *)
Lemma bmc_manual_rows_coexist :
  (manual_bmcs !! 0%nat = Some {| power_type := "manual"; power_parameters := "{}" |}
   ∧ manual_bmcs !! 1%nat = Some {| power_type := "manual"; power_parameters := "{}" |})
  ∧ ∀ md5 : string → string,
      satisfies (maasserver_bmc_power_type_parameters_idx md5) manual_bmcs.
Proof.
  split; [done|]. intros md5. unfold satisfies. cbn. constructor.
Qed.

(** ** [_parse_constraints] *)

Lemma split_go_strip_l (s : string) :
  Py.split_go EmptyString (Py.lstrip s) = Py.split_go EmptyString s.
Proof.
  induction s as [|c s IH]; [done|]. cbn.
  destruct (Py.is_space c) eqn:Hc; [done|]. cbn. by rewrite Hc.
Qed.

Lemma split_go_strip_r (cur s : string) :
  Py.split_go cur (Py.rstrip s) = Py.split_go cur s.
Proof.
  revert cur. induction s as [|c s IH]; intros cur; [done|].
  cbn [Py.rstrip].
  destruct (Py.is_empty (Py.rstrip s) && Py.is_space c) eqn:Hc.
  - apply andb_true_iff in Hc as [He Hc]. cbn. rewrite Hc.
    rewrite <- IH. destruct (Py.rstrip s); [|done]. cbn.
    by rewrite app_nil_r.
  - cbn. destruct (Py.is_space c); by rewrite IH.
Qed.

Lemma split_strip (s : string) : Py.split (Py.strip s) = Py.split s.
Proof.
  unfold Py.split, Py.strip. by rewrite split_go_strip_r, split_go_strip_l.
Qed.

Lemma has_space_app (s t : string) :
  has_space (s +:+ t) = has_space s || has_space t.
Proof.
  induction s as [|c s IH]; [done|].
  rewrite string_app_cons. cbn. rewrite IH. by rewrite orb_assoc.
Qed.

Lemma split_go_tokens (cur s : string) :
  has_space cur = false →
  Forall (λ w, w ≠ EmptyString ∧ has_space w = false) (Py.split_go cur s).
Proof.
  revert cur. induction s as [|c s IH]; intros cur Hcur; cbn.
  - destruct cur; cbn; repeat constructor; done.
  - destruct (Py.is_space c) eqn:Hc.
    + apply Forall_app. split; [|by apply IH].
      destruct cur; cbn; repeat constructor; done.
    + apply IH. rewrite has_space_app, Hcur. cbn. by rewrite Hc.
Qed.

Lemma split_go_concat (cur s : string) :
  concat_all (Py.split_go cur s) = cur +:+ without_spaces s.
Proof.
  revert cur. induction s as [|c s IH]; intros cur; cbn.
  - destruct cur; cbn; [done|]. by rewrite !string_app_empty_r.
  - destruct (Py.is_space c) eqn:Hc.
    + destruct cur; cbn; rewrite IH; [done|].
      by rewrite string_app_empty_l.
    + rewrite IH. by rewrite string_app_assoc.
Qed.

Lemma partition_none (sep : ascii) (s : string) :
  Py.partition sep s = None ↔ occurs sep s = false.
Proof.
  induction s as [|c s IH]; cbn; [done|].
  destruct (Ascii.eqb c sep); cbn; [done|].
  destruct (Py.partition sep s) as [[a b]|]; [|tauto].
  split; [done|]. intros H. apply IH in H. done.
Qed.

Lemma partition_some (sep : ascii) (s before after : string) :
  Py.partition sep s = Some (before, after)
  ↔ s = before +:+ String sep after ∧ occurs sep before = false.
Proof.
  revert before. induction s as [|c s IH]; intros before; cbn [Py.partition].
  - split; [done|]. intros [H _].
    destruct before; [rewrite string_app_empty_l in H
                     |rewrite string_app_cons in H]; done.
  - destruct (Ascii.eqb_spec c sep) as [->|Hne].
    + split.
      * intros [= <- <-]. by rewrite string_app_empty_l.
      * intros [H Hocc]. destruct before as [|d before].
        -- rewrite string_app_empty_l in H. by simplify_eq.
        -- rewrite string_app_cons in H. simplify_eq. cbn in Hocc.
           by rewrite Ascii.eqb_refl in Hocc.
    + split.
      * destruct (Py.partition sep s) as [[a b]|] eqn:Hp; [|done].
        intros [= <- <-]. rewrite string_app_cons. cbn [occurs].
        destruct (proj1 (IH a) eq_refl) as [-> Hocc].
        split; [done|]. rewrite Hocc.
        by destruct (Ascii.eqb_spec c sep).
      * intros [H Hocc]. destruct before as [|d before].
        -- rewrite string_app_empty_l in H. by simplify_eq.
        -- rewrite string_app_cons in H. simplify_eq. cbn in Hocc.
           apply orb_false_iff in Hocc as [_ Hocc].
           by rewrite (proj2 (IH before) (conj eq_refl Hocc)).
Qed.

Lemma constraint_step_described (constraints : list string) (word : string) :
  constraint_step constraints word
  = constraints ++ option_list (described_constraint word).
Proof.
  unfold constraint_step, described_constraint, Py.split1.
  destruct (Py.partition "=" word) as [[k v]|]; cbn.
  - destruct (String.eqb_spec v "any") as [->|Hv]; cbn.
    + by rewrite app_nil_r.
    + rewrite decide_False by done. cbn. by rewrite string_app_empty_r.
  - done.
Qed.

Lemma fold_constraint_step (tokens constraints : list string) :
  fold_left constraint_step tokens constraints
  = constraints ++ omap described_constraint tokens.
Proof.
  revert constraints. induction tokens as [|w tokens IH]; intros constraints; cbn.
  - by rewrite app_nil_r.
  - rewrite IH, constraint_step_described, <- app_assoc. f_equal.
    by destruct (described_constraint w).
Qed.

(** C3. For every query string the tokens are the runs of characters
    between white space (none is empty, none holds white space, and
    together they are the query without its white space), and the
    constraints are what the tokens become, in their order: a token
    without [=] becomes the constraint [key=] with an empty value, a token
    [key=value] whose value is not [any] is kept as it is, and a token
    whose value is [any] is discarded, and only such a token is.  The
    query [zone=rack1 memory=any arch=] gives the constraints [zone=rack1]
    and [arch=].  What [_parse_constraints] returns is the [QueryDict] of
    these constraints joined by [&], whatever [QueryDict] does with a
    text: for the query above, the [QueryDict] of [zone=rack1&arch=]. *)
Theorem parse_constraints_described :
  (∀ query_string : string,
     let tokens := Py.split (Py.strip query_string) in
     Forall (λ w, w ≠ EmptyString ∧ has_space w = false) tokens
     ∧ concat_all tokens = without_spaces query_string
     ∧ parsed_constraints query_string = omap described_constraint tokens)
  ∧ (∀ key : string, occurs "=" key = false →
       described_constraint key = Some (key +:+ "="))
  ∧ (∀ key value : string, occurs "=" key = false → value ≠ "any" →
       described_constraint (key +:+ "=" +:+ value) = Some (key +:+ "=" +:+ value))
  ∧ (∀ token : string,
       described_constraint token = None
       ↔ ∃ key, occurs "=" key = false ∧ token = key +:+ "=any")
  ∧ parsed_constraints "zone=rack1 memory=any arch=" = ["zone=rack1"; "arch="]
  ∧ (∀ (QD : Type) (QueryDict : string → QD) (query_string : string),
       _parse_constraints QueryDict query_string
       = QueryDict (Py.join "&" (omap described_constraint
                                   (Py.split (Py.strip query_string)))))
  ∧ (∀ (QD : Type) (QueryDict : string → QD),
       _parse_constraints QueryDict "zone=rack1 memory=any arch="
       = QueryDict "zone=rack1&arch=").
Proof.
  split; [|split; [|split; [|split; [|split; [|split]]]]].
  - intros query_string tokens. subst tokens. rewrite split_strip.
    split; [by apply split_go_tokens|].
    split; [apply split_go_concat|].
    unfold parsed_constraints. by rewrite split_strip, fold_constraint_step.
  - intros key Hkey. unfold described_constraint.
    by apply partition_none in Hkey as ->.
  - intros key value Hkey Hvalue. unfold described_constraint.
    assert (Py.partition "=" (key +:+ "=" +:+ value) = Some (key, value)) as ->.
    { by apply partition_some. }
    by rewrite decide_False.
  - intros token. unfold described_constraint. split.
    + destruct (Py.partition "=" token) as [[k v]|] eqn:Hp; [|done].
      case_decide as Hv; [|done]. subst v. intros _.
      apply partition_some in Hp as [-> Hocc]. by exists k.
    + intros (key & Hocc & ->).
      assert (Py.partition "=" (key +:+ "=any") = Some (key, "any")) as ->.
      { by apply partition_some. }
      done.
  - reflexivity.
  - intros QD QueryDict query_string. unfold _parse_constraints, parsed_constraints.
    by rewrite fold_constraint_step.
  - intros QD QueryDict. reflexivity.
Qed.

Example parse_constraints_examples :
  parsed_constraints "  zone  =any a=any=b mem " = ["zone="; "a=any=b"; "mem="]
  ∧ _parse_constraints (λ s, s) "zone=rack1 memory=any arch="
    = "zone=rack1&arch=".
Proof. by vm_compute. Qed.

(** ** Migration 0240 *)

(** *** The replacement of the characters *)

Lemma all_key_chars_app (word : ascii → bool) (s t : string) :
  all_key_chars word (s +:+ t) = all_key_chars word s && all_key_chars word t.
Proof.
  induction s as [|c s IH]; [done|].
  rewrite string_app_cons. cbn. by rewrite IH, andb_assoc.
Qed.

Lemma all_key_chars_underscores (n : nat) :
  all_key_chars python_word (underscores n) = true.
Proof.
  induction n as [|n IH]; [done|]. cbn [underscores].
  by rewrite all_key_chars_app, IH.
Qed.

Lemma REPLACE_RE_sub_cons (c : ascii) (s : string) :
  REPLACE_RE_sub "_" (String c s)
  = String (replaced_char c) (REPLACE_RE_sub "_" s).
Proof.
  unfold replaced_char. cbn [REPLACE_RE_sub].
  by destruct (key_char python_word c).
Qed.

Lemma key_char_replaced (c : ascii) :
  key_char python_word (replaced_char c) = true.
Proof. unfold replaced_char. by destruct (key_char python_word c) eqn:Hc. Qed.

Lemma REPLACE_RE_sub_key_chars (s : string) :
  all_key_chars python_word (REPLACE_RE_sub "_" s) = true.
Proof.
  induction s as [|c s IH]; [done|]. rewrite REPLACE_RE_sub_cons.
  cbn [all_key_chars]. by rewrite key_char_replaced, IH.
Qed.


Lemma REPLACE_RE_sub_length (s : string) :
  String.length (REPLACE_RE_sub "_" s) = String.length s.
Proof.
  induction s as [|c s IH]; [done|]. rewrite REPLACE_RE_sub_cons.
  cbn. by rewrite IH.
Qed.

(** Nothing is left to replace in a text all of whose characters are of
    the class as Python reads it: in a replaced key, with or without
    underscores after it. *)
Lemma REPLACE_RE_sub_fixed (s : string) :
  all_key_chars python_word s = true → REPLACE_RE_sub "_" s = s.
Proof.
  induction s as [|c s IH]; [done|]. cbn.
  intros [Hc Hs]%andb_true_iff. by rewrite Hc, IH.
Qed.



Lemma python_word_reads_ascii : reads_ascii python_word.
Proof.
  intros c Hc. unfold python_word.
  destruct (ascii_word c); [done|]. cbn.
  repeat match goal with
         | |- context [(?a =? ?b)%N] =>
             destruct (N.eqb_spec a b); [lia|]
         | |- context [(?a <=? ?b)%N] =>
             destruct (N.leb_spec a b); cbn; try lia
         end; done.
Qed.

Lemma app_underscores_S (k : string) (n : nat) :
  k +:+ underscores (S n) = (k +:+ "_") +:+ underscores n.
Proof. cbn [underscores]. by rewrite string_app_assoc. Qed.

(** *** The loop that appends underscores *)


Lemma while_in_spec (bound : nat) (keys : gset string) (k : string) :
  (size (not_shorter keys k) < bound)%nat →
  ∃ n : nat,
    while_in bound keys k = Ok (k +:+ underscores n)
    ∧ (k +:+ underscores n ∉ keys)
    ∧ ∀ m : nat, (m < n)%nat → k +:+ underscores m ∈ keys.
Proof.
  revert k. induction bound as [|bound IH]; intros k Hsize; [lia|].
  cbn [while_in]. case_decide as Hin.
  - destruct (IH (k +:+ "_")) as (n & Hrun & Hout & Hbelow).
    { assert (not_shorter keys (k +:+ "_") ⊂ not_shorter keys k) as Hsub.
      { unfold not_shorter. apply strict_spec_alt. split.
        - intros s [Hlen Hs]%elem_of_filter. apply elem_of_filter.
          split; [|done]. rewrite string_app_length in Hlen. cbn in Hlen. lia.
        - intros Heq.
          assert (k ∈ filter (λ s, (String.length (k +:+ "_") ≤ String.length s)%nat) keys)
            as [Hlen _]%elem_of_filter.
          { rewrite Heq. apply elem_of_filter. split; [lia|done]. }
          rewrite string_app_length in Hlen. cbn in Hlen. lia. }
      apply subset_size in Hsub. lia. }
    exists (S n). rewrite app_underscores_S. split; [done|]. split; [done|].
    intros [|m] Hm.
    + cbn [underscores]. by rewrite string_app_empty_r.
    + rewrite app_underscores_S. apply Hbelow. lia.
  - exists 0%nat. cbn [underscores]. rewrite string_app_empty_r.
    split; [done|]. split; [done|]. intros m Hm. lia.
Qed.

Lemma while_in_terminates (keys : gset string) (k : string) :
  ∃ n : nat,
    while_in (S (size keys)) keys k = Ok (k +:+ underscores n)
    ∧ (k +:+ underscores n ∉ keys)
    ∧ ∀ m : nat, (m < n)%nat → k +:+ underscores m ∈ keys.
Proof.
  apply while_in_spec.
  assert (size (not_shorter keys k) ≤ size keys)%nat; [|lia].
  apply subseteq_size. unfold not_shorter. intros s Hs.
  by apply elem_of_filter in Hs as [_ ?].
Qed.

(** *** The keys of a node *)

Lemma elem_of_node_keys_of (table : list OwnerData) (n : Z) (k : string) :
  k ∈ node_keys_of table n ↔ ∃ row, row ∈ table ∧ node_id row = n ∧ key row = k.
Proof.
  unfold node_keys_of. rewrite elem_of_list_to_set, list_elem_of_fmap.
  split.
  - intros (row & -> & [Hn Hrow]%list_elem_of_filter). by exists row.
  - intros (row & Hrow & Hn & <-). exists row. split; [done|].
    by apply list_elem_of_filter.
Qed.

Lemma node_keys_of_app (t1 t2 : list OwnerData) (n : Z) :
  node_keys_of (t1 ++ t2) n = node_keys_of t1 n ∪ node_keys_of t2 n.
Proof.
  apply set_eq. intros k.
  rewrite elem_of_union, !elem_of_node_keys_of.
  setoid_rewrite elem_of_app. naive_solver.
Qed.

Lemma node_keys_of_cons (row : OwnerData) (table : list OwnerData) (n : Z) :
  node_keys_of (row :: table) n
  = (if decide (node_id row = n) then {[key row]} else ∅) ∪ node_keys_of table n.
Proof.
  apply set_eq. intros k.
  rewrite elem_of_union, !elem_of_node_keys_of.
  setoid_rewrite elem_of_cons. case_decide; set_solver.
Qed.

Lemma node_keys_of_middle (pre rest : list OwnerData) (row : OwnerData) (n : Z) :
  node_keys_of (pre ++ row :: rest) n
  = (if decide (node_id row = n) then {[key row]} else ∅)
    ∪ node_keys_of (pre ++ rest) n.
Proof.
  rewrite !node_keys_of_app, node_keys_of_cons. case_decide; set_solver.
Qed.

Lemma keys_distinct_middle (pre rest : list OwnerData) (row : OwnerData) :
  keys_distinct (pre ++ row :: rest)
  ↔ (key row ∉ node_keys_of (pre ++ rest) (node_id row))
    ∧ keys_distinct (pre ++ rest).
Proof.
  unfold keys_distinct.
  rewrite <- (Permutation_middle pre rest row), fmap_cons, NoDup_cons.
  rewrite elem_of_node_keys_of, list_elem_of_fmap.
  split; intros [Hnotin Hnd]; (split; [|done]); intros Hin; apply Hnotin.
  - destruct Hin as (r & Hr & Hn & Hk). exists r. split; [congruence|done].
  - destruct Hin as (r & [= Hn Hk] & Hr). by exists r.
Qed.

Lemma node_ids_middle (pre rest : list OwnerData) (row row' : OwnerData) (n : Z) :
  node_id row' = node_id row →
  n ∈ node_id <$> (pre ++ row' :: rest) ↔ n ∈ node_id <$> (pre ++ row :: rest).
Proof.
  intros Hid. rewrite !fmap_app, !fmap_cons, !elem_of_app, !elem_of_cons.
  by rewrite Hid.
Qed.

(** *** The dictionary built from the table *)

Lemma existing_node_keys_cons (row : OwnerData) (table : list OwnerData) :
  existing_node_keys (row :: table)
  = <[node_id row := {[key row]}
                     ∪ default ∅ (existing_node_keys table !! node_id row)]>
      (existing_node_keys table).
Proof. reflexivity. Qed.

Lemma existing_node_keys_agree (table : list OwnerData) :
  keys_agree (existing_node_keys table) table.
Proof.
  induction table as [|row table IH]; intros n.
  - cbn. by rewrite lookup_empty.
  - rewrite existing_node_keys_cons, fmap_cons, node_keys_of_cons.
    destruct (decide (node_id row = n)) as [->|Hne].
    + rewrite lookup_insert_eq, decide_True by set_solver.
      f_equal. f_equal. rewrite (IH n).
      case_decide as Hin; [done|]. cbn.
      apply set_eq. intros k. rewrite elem_of_node_keys_of.
      split; [set_solver|]. intros (r & Hr & Hn & _).
      exfalso. apply Hin. rewrite <- Hn. by apply list_elem_of_fmap_2.
    + rewrite lookup_insert_ne by done. rewrite (IH n).
      rewrite union_empty_l_L.
      repeat case_decide; try done; set_solver.
Qed.

(** *** One selected row *)

Lemma fix_entry_spec (pre rest : list OwnerData) (keys : gmap Z (gset string))
    (entry : OwnerData) :
  keys_agree keys (pre ++ entry :: rest) →
  keys_distinct (pre ++ entry :: rest) →
  ∃ (n : nat),
    let new_key := REPLACE_RE_sub "_" (key entry) +:+ underscores n in
    let entry' := {| node_id := node_id entry; key := new_key;
                     value := value entry |} in
    let others := node_keys_of (pre ++ rest) (node_id entry) in
    fix_entry keys entry
    = Ok (<[node_id entry := others ∪ {[new_key]}]> keys, entry')
    ∧ (new_key ∉ others)
    ∧ (∀ m : nat, (m < n)%nat →
         REPLACE_RE_sub "_" (key entry) +:+ underscores m ∈ others)
    ∧ keys_agree (<[node_id entry := others ∪ {[new_key]}]> keys)
        (pre ++ entry' :: rest)
    ∧ keys_distinct (pre ++ entry' :: rest).
Proof.
  intros Hagree Hdist.
  apply keys_distinct_middle in Hdist as [Hfresh Hdist].
  assert (Hnk : keys !! node_id entry
                = Some (node_keys_of (pre ++ entry :: rest) (node_id entry))).
  { rewrite (Hagree (node_id entry)), decide_True; [done|].
    rewrite fmap_app, fmap_cons. set_solver. }
  assert (Hothers : node_keys_of (pre ++ entry :: rest) (node_id entry)
                      ∖ {[key entry]}
                    = node_keys_of (pre ++ rest) (node_id entry)).
  { rewrite node_keys_of_middle, decide_True by done. set_solver. }
  destruct (while_in_terminates (node_keys_of (pre ++ rest) (node_id entry))
              (REPLACE_RE_sub "_" (key entry))) as (n & Hrun & Hout & Hbelow).
  exists n. cbn zeta. split; [|split; [done|split; [done|split]]].
  - unfold fix_entry. rewrite Hnk. cbn -[while_in].
    rewrite decide_True
      by (rewrite node_keys_of_middle, decide_True by done; set_solver).
    cbn -[while_in]. rewrite Hothers, Hrun. done.
  - intros m. destruct (decide (node_id entry = m)) as [<-|Hne].
    + rewrite lookup_insert_eq, decide_True.
      * f_equal. rewrite node_keys_of_middle. cbn [node_id key].
        rewrite decide_True by done. set_solver.
      * rewrite fmap_app, fmap_cons. set_solver.
    + rewrite lookup_insert_ne by done. rewrite (Hagree m).
      match goal with
      | |- _ = if _ then Some (node_keys_of (pre ++ ?e' :: rest) m) else _ =>
          assert (Hk : node_keys_of (pre ++ e' :: rest) m
                       = node_keys_of (pre ++ entry :: rest) m)
      end.
      { rewrite !node_keys_of_middle. cbn [node_id].
        by rewrite !decide_False by done. }
      rewrite Hk. apply decide_ext. symmetry. by apply node_ids_middle.
  - apply keys_distinct_middle. by split.
Qed.

(** *** The loop over the rows *)

Lemma fix_entries_cons (db_word : ascii → bool) (keys : gmap Z (gset string))
    (entry : OwnerData) (rest : list OwnerData) :
  fix_entries db_word keys (entry :: rest)
  = if key_regex db_word (key entry) then
      rest' ← fix_entries db_word keys rest; Ok (entry :: rest')
    else
      '(keys', entry') ← fix_entry keys entry;
      rest' ← fix_entries db_word keys' rest; Ok (entry' :: rest').
Proof. reflexivity. Qed.


Lemma fix_entries_spec (db_word : ascii → bool) (rest pre : list OwnerData)
    (keys : gmap Z (gset string)) :
  keys_agree keys (pre ++ rest) →
  keys_distinct (pre ++ rest) →
  ∃ rest' : list OwnerData,
    fix_entries db_word keys rest = Ok rest'
    ∧ length rest' = length rest
    ∧ keys_distinct (pre ++ rest')
    ∧ ∀ (i : nat) (row : OwnerData), rest !! i = Some row →
        ∃ row', rest' !! i = Some row'
          ∧ rewritten db_word (pre ++ take i rest' ++ drop (S i) rest) row row'.
Proof.
  revert pre keys. induction rest as [|entry rest IH]; intros pre keys Hagree Hdist.
  - exists []. by repeat split.
  - rewrite fix_entries_cons. destruct (key_regex db_word (key entry)) eqn:Hre.
    + destruct (IH (pre ++ [entry]) keys) as (rest' & Hrun & Hlen & Hdist' & Hrows).
      { by rewrite <- app_assoc. } { by rewrite <- app_assoc. }
      exists (entry :: rest'). rewrite Hrun. cbn [mbind result_bind].
      split; [done|]. split; [by cbn; rewrite Hlen|].
      split; [by rewrite <- app_assoc in Hdist'|].
      intros [|i] row Hrow; cbn in Hrow.
      * simplify_eq. exists row. split; [done|].
        unfold rewritten. by rewrite Hre.
      * destruct (Hrows i row Hrow) as (row' & Hrow' & Hrew).
        exists row'. split; [done|].
        by rewrite <- app_assoc in Hrew.
    + destruct (fix_entry_spec pre rest keys entry Hagree Hdist)
        as (n & Hrun & Hout & Hbelow & Hagree' & Hdist').
      cbn zeta in Hrun, Hout, Hbelow, Hagree', Hdist'.
      set (entry' := {| node_id := node_id entry;
                        key := REPLACE_RE_sub "_" (key entry) +:+ underscores n;
                        value := value entry |}) in *.
      match type of Hagree' with keys_agree ?keys' _ =>
        destruct (IH (pre ++ [entry']) keys')
          as (rest' & Hrun' & Hlen & Hdist'' & Hrows)
      end.
      { rewrite <- app_assoc. exact Hagree'. } { by rewrite <- app_assoc. }
      exists (entry' :: rest'). rewrite Hrun. cbn [mbind result_bind].
      rewrite Hrun'. cbn [mbind result_bind].
      split; [done|]. split; [by cbn; rewrite Hlen|].
      split; [by rewrite <- app_assoc in Hdist''|].
      intros [|i] row Hrow; cbn in Hrow.
      * simplify_eq. exists entry'. split; [done|].
        unfold rewritten. rewrite Hre. cbn [take drop app].
        split; [done|]. split; [done|]. by exists n.
      * destruct (Hrows i row Hrow) as (row' & Hrow' & Hrew).
        exists row'. split; [done|].
        by rewrite <- app_assoc in Hrew.
Qed.

(** A row the migration saves is one the database did not select, or has
    a key all of whose characters are of the class as Python reads it. *)
Lemma rewritten_key_chars (db_word : ascii → bool) (others : list OwnerData)
    (row row' : OwnerData) :
  rewritten db_word others row row' →
  key_regex db_word (key row') = true
  ∨ all_key_chars python_word (key row') = true.
Proof.
  intros (_ & _ & Hkey). destruct (key_regex db_word (key row)) eqn:Hre.
  - left. by rewrite Hkey.
  - right. destruct Hkey as (n & -> & _).
    by rewrite all_key_chars_app, REPLACE_RE_sub_key_chars,
      all_key_chars_underscores.
Qed.

Lemma rewritten_key_settled (db_word : ascii → bool) (others : list OwnerData)
    (row row' : OwnerData) :
  rewritten db_word others row row' → key_settled db_word row'.
Proof.
  intros [Hre|Hchars]%rewritten_key_chars; [by left|].
  right. by apply REPLACE_RE_sub_fixed.
Qed.

Lemma fix_ownerdata_keys_sound (db_word : ascii → bool) (table : list OwnerData) :
  keys_distinct table →
  ∃ table' : list OwnerData,
    fix_ownerdata_keys db_word table = Ok table'
    ∧ length table' = length table
    ∧ keys_distinct table'
    ∧ ∀ (i : nat) (row : OwnerData), table !! i = Some row →
        ∃ row', table' !! i = Some row'
          ∧ rewritten db_word (take i table' ++ drop (S i) table) row row'.
Proof.
  intros Hdist. unfold fix_ownerdata_keys.
  apply (fix_entries_spec db_word table []); [|done].
  apply existing_node_keys_agree.
Qed.

(** *** Rows with nothing to replace *)

Lemma key_settled_fixed (pre rest : list OwnerData) (keys : gmap Z (gset string))
    (entry : OwnerData) :
  keys_agree keys (pre ++ entry :: rest) →
  keys_distinct (pre ++ entry :: rest) →
  REPLACE_RE_sub "_" (key entry) = key entry →
  fix_entry keys entry = Ok (keys, entry).
Proof.
  intros Hagree Hdist Hkey.
  destruct (fix_entry_spec pre rest keys entry Hagree Hdist)
    as (n & Hrun & Hout & Hbelow & Hagree' & _).
  cbn zeta in *. rewrite Hkey in *.
  apply keys_distinct_middle in Hdist as [Hfresh _].
  destruct n as [|n].
  2:{ specialize (Hbelow 0%nat ltac:(lia)). cbn [underscores] in Hbelow.
      by rewrite string_app_empty_r in Hbelow. }
  cbn [underscores] in *. rewrite string_app_empty_r in *. rewrite Hrun.
  assert (Hentry : {| node_id := node_id entry; key := key entry;
                      value := value entry |} = entry) by by destruct entry.
  rewrite Hentry in *. do 2 f_equal.
  apply map_eq. intros m. by rewrite Hagree', Hagree.
Qed.

Lemma fix_entries_settled (db_word : ascii → bool) (rest pre : list OwnerData)
    (keys : gmap Z (gset string)) :
  keys_agree keys (pre ++ rest) →
  keys_distinct (pre ++ rest) →
  Forall (key_settled db_word) rest →
  fix_entries db_word keys rest = Ok rest.
Proof.
  revert pre. induction rest as [|entry rest IH]; intros pre Hagree Hdist Hall;
    [done|].
  apply Forall_cons in Hall as [Hentry Hall].
  assert (Hrest : fix_entries db_word keys rest = Ok rest).
  { apply (IH (pre ++ [entry])); by rewrite <- ?app_assoc. }
  rewrite fix_entries_cons. destruct (key_regex db_word (key entry)) eqn:Hre.
  - by rewrite Hrest.
  - destruct Hentry as [Hkey|Hkey]; [congruence|].
    rewrite (key_settled_fixed pre rest keys entry) by done.
    cbn [mbind result_bind]. by rewrite Hrest.
Qed.


(** C6, on the table whose only row has the empty key, whatever the
    database reads as [\w].  The expression asks for one character at
    least, so the row is selected; nothing is replaced in the empty key
    and no other row has it, so the row is saved with the empty key, which
    does not match the expression.  On every table where no node has a key
    twice the migration ends, no node has a key twice afterwards, and
    every key matches the expression for the database or is made of
    characters of the class as Python reads it; when the database reads as
    word characters all that Python does, every key matches or is empty.
    A character that Python reads as a word character and the database
    does not is kept: a key made of it is selected and saved as it is, and
    does not match afterwards either. *)
Theorem fix_ownerdata_keys_keeps_empty_key :
  (∀ db_word : ascii → bool,
     keys_distinct empty_key_table
     ∧ fix_ownerdata_keys db_word empty_key_table = Ok empty_key_table
     ∧ Exists (λ row, key_regex db_word (key row) = false) empty_key_table)
  ∧ (∀ (db_word : ascii → bool) (table : list OwnerData), keys_distinct table →
      ∃ table' : list OwnerData,
        fix_ownerdata_keys db_word table = Ok table'
        ∧ keys_distinct table'
        ∧ Forall (λ row, key_regex db_word (key row) = true
                         ∨ all_key_chars python_word (key row) = true) table'
        ∧ ((∀ c, python_word c = true → db_word c = true) →
           Forall (λ row, key row = EmptyString
                          ∨ key_regex db_word (key row) = true) table'))
  ∧ (∀ (db_word : ascii → bool) (c : ascii) (n : Z) (v : string),
       db_word c = false → python_word c = true →
       fix_ownerdata_keys db_word
         [ {| node_id := n; key := String c EmptyString; value := v |} ]
       = Ok [ {| node_id := n; key := String c EmptyString; value := v |} ]
       ∧ key_regex db_word (String c EmptyString) = false).
Proof.
  split; [|split].
  - intros db_word. split; [|split].
    + unfold keys_distinct. by apply (bool_decide_unpack _).
    + by vm_compute.
    + by constructor.
  - intros db_word table Hdist.
    destruct (fix_ownerdata_keys_sound db_word table Hdist)
      as (table' & Hrun & Hlen & Hdist' & Hrows).
    exists table'. split; [done|]. split; [done|].
    assert (Hall : Forall (λ row, key_regex db_word (key row) = true
                     ∨ all_key_chars python_word (key row) = true) table').
    { apply Forall_lookup. intros i row' Hrow'.
      destruct (table !! i) as [row|] eqn:Hrow.
      - destruct (Hrows i row Hrow) as (row'' & Hrow'' & Hrew).
        simplify_eq. by eapply rewritten_key_chars.
      - apply lookup_ge_None in Hrow. apply lookup_lt_Some in Hrow'. lia. }
    split; [done|]. intros Hsub.
    eapply Forall_impl; [exact Hall|]. intros row [Hre|Hchars]; [by right|].
    destruct (key row) as [|c k] eqn:Hkey; [by left|]. right.
    unfold key_regex. cbn [Py.is_empty negb andb].
    clear Hkey. revert Hchars. generalize (String c k) as s.
    induction s as [|d s IH]; [done|]. cbn.
    intros [Hd Hs]%andb_true_iff. rewrite IH by done.
    unfold key_char in *. apply orb_true_iff in Hd as [Hd|Hd].
    * apply orb_true_iff in Hd as [Hd|Hd]; [by rewrite (Hsub d Hd)|].
      rewrite Hd. by rewrite orb_true_r.
    * rewrite Hd. by rewrite !orb_true_r.
  - intros db_word c n v Hdb Hpy.
    assert (Hdot : Ascii.eqb c "." = false).
    { destruct (Ascii.eqb_spec c "."); [by subst|done]. }
    assert (Hdash : Ascii.eqb c "-" = false).
    { destruct (Ascii.eqb_spec c "-"); [by subst|done]. }
    assert (Hre : key_regex db_word (String c EmptyString) = false).
    { unfold key_regex. cbn [Py.is_empty negb all_key_chars]. unfold key_char.
      by rewrite Hdb, Hdot, Hdash. }
    split; [|done]. unfold fix_ownerdata_keys.
    apply (fix_entries_settled db_word _ []).
    + apply existing_node_keys_agree.
    + unfold keys_distinct. cbn. apply NoDup_singleton.
    + constructor; [|constructor]. right. cbn [key REPLACE_RE_sub].
      unfold key_char. by rewrite Hpy.
Qed.

(** The keys [m] with a superscript two and [e] with an acute accent stay
    as they are, whether the database selects them or not: Python reads
    both characters as word characters. *)
Example fix_ownerdata_keys_latin1 :
  fix_ownerdata_keys latin1_letters_word latin1_key_table = Ok latin1_key_table
  ∧ fix_ownerdata_keys ascii_word latin1_key_table = Ok latin1_key_table
  ∧ key_regex latin1_letters_word superscript_key = false
  ∧ key_regex latin1_letters_word accent_key = true.
Proof. by vm_compute. Qed.

(* ================================================================== *)
(** * Part III: further properties of the code *)
(* ================================================================== *)

(** ** Sorting with a comparison *)

Section SortedLe.
Context {A : Type} (le : A → A → bool).
Hypothesis le_total : ∀ x y, le x y = true ∨ le y x = true.
Hypothesis le_trans : ∀ x y z, le x y = true → le y z = true → le x z = true.

Lemma insert_le_perm (x : A) (l : list A) : insert_le le x l ≡ₚ x :: l.
Proof.
  induction l as [|y l IH]; cbn; [done|].
  destruct (le x y); [done|]. rewrite IH. apply Permutation_swap.
Qed.

Lemma sorted_le_perm (l : list A) : sorted_le le l ≡ₚ l.
Proof.
  induction l as [|x l IH]; [done|].
  cbn [sorted_le foldr]. fold (sorted_le le l). by rewrite insert_le_perm, IH.
Qed.

Lemma insert_le_sorted (x : A) (l : list A) :
  StronglySorted (λ a b, le a b = true) l →
  StronglySorted (λ a b, le a b = true) (insert_le le x l).
Proof.
  induction 1 as [|y l Hs IH Hy]; cbn.
  - repeat constructor.
  - destruct (le x y) eqn:Hxy.
    + constructor; [by constructor|]. constructor; [done|].
      eapply Forall_impl; [exact Hy|]. intros z Hz. by eapply le_trans.
    + constructor; [done|]. rewrite insert_le_perm. constructor; [|done].
      destruct (le_total x y) as [H|H]; [congruence|done].
Qed.

Lemma sorted_le_sorted (l : list A) :
  StronglySorted (λ a b, le a b = true) (sorted_le le l).
Proof.
  induction l as [|x l IH]; [constructor|].
  cbn [sorted_le foldr]. by apply insert_le_sorted.
Qed.
End SortedLe.

Lemma option_string_le_total (a b : option string) :
  option_string_le a b = true ∨ option_string_le b a = true.
Proof.
  destruct a as [s|], b as [t|]; cbn; auto. apply String.leb_total.
Qed.

Lemma string_leb_trans (s t u : string) :
  String.leb s t = true → String.leb t u = true → String.leb s u = true.
Proof.
  intros H1 H2. apply Is_true_true.
  apply (transitivity (R := String.le) (y := t)); by apply Is_true_true.
Qed.

Lemma option_string_le_trans (a b c : option string) :
  option_string_le a b = true → option_string_le b c = true →
  option_string_le a c = true.
Proof.
  destruct a as [s|], b as [t|], c as [u|]; cbn; try done.
  apply string_leb_trans.
Qed.

(** ** [NodeListView.late_sort] *)

(** X1. The late sort never adds, drops or repeats a node; it leaves the
    list as it is unless the view sorts by [primary_mac]; and when it
    does, the list comes out in the order of [primary_mac], the nodes
    without MAC first, or in the opposite order when the direction is
    [desc]. *)
Theorem late_sort_sorts (self : NodeListView) (node_list : list Node) :
  late_sort self node_list ≡ₚ node_list
  ∧ (sort_by self ≠ Some "primary_mac" → late_sort self node_list = node_list)
  ∧ (sort_by self = Some "primary_mac" →
     StronglySorted
       (λ a b, if decide (sort_dir self = Some "desc")
               then option_string_le (primary_mac b) (primary_mac a) = true
               else option_string_le (primary_mac a) (primary_mac b) = true)
       (late_sort self node_list)).
Proof.
  unfold late_sort, sorted_key. split; [|split].
  - destruct (sort_by self) as [field|]; [|done].
    case_decide; [|done]. apply sorted_le_perm.
  - intros Hne. destruct (sort_by self) as [field|]; [|done].
    case_decide as Hin; [|done]. exfalso. apply Hne.
    unfold late_sort_fields in Hin. apply list_elem_of_singleton in Hin.
    by subst.
  - intros ->. rewrite decide_True by (unfold late_sort_fields; set_solver).
    destruct (decide (sort_dir self = Some "desc")) as [Hd|Hd].
    + rewrite bool_decide_eq_true_2 by done.
      apply (sorted_le_sorted
               (λ x y, option_string_le (primary_mac y) (primary_mac x))).
      * intros x y. apply option_string_le_total.
      * intros x y z H1 H2. by eapply option_string_le_trans.
    + rewrite bool_decide_eq_false_2 by done.
      apply (sorted_le_sorted
               (λ x y, option_string_le (primary_mac x) (primary_mac y))).
      * intros x y. apply option_string_le_total.
      * intros x y z H1 H2. by eapply option_string_le_trans.
Qed.

(** ** [NodeListView._compose_sort_order] *)

Lemma format_minus (s : string) : Py.format "-%s" [Py.ArgS s] = "-" +:+ s.
Proof. cbn. by rewrite string_app_empty_r. Qed.

(** X2. The order given to the database always ends with [-created];
    before it there is at most one entry, which is the sort field of the
    request or that field after a minus sign, and only when the field is
    one of the seven sort fields, so that no other text of the request
    reaches [order_by].  The two sorts never both apply: when the late
    sort changes a list the database order is [-created] alone, and when
    the database order has a field the late sort changes nothing. *)
Theorem compose_sort_order_whitelist (self : NodeListView) :
  (∃ order_by : list string,
     _compose_sort_order self = order_by ++ ["-created"]
     ∧ (length order_by ≤ 1)%nat
     ∧ ∀ o, o ∈ order_by →
         ∃ field, sort_by self = Some field ∧ field ∈ sort_fields
           ∧ o = if decide (sort_dir self = Some "desc")
                 then "-" +:+ field else field)
  ∧ (∀ node_list, late_sort self node_list ≠ node_list →
       _compose_sort_order self = ["-created"])
  ∧ (_compose_sort_order self ≠ ["-created"] →
       ∀ node_list, late_sort self node_list = node_list).
Proof.
  assert (Hex : ∀ field, field ∈ sort_fields → field ∉ late_sort_fields).
  { intros field Hin Hlate. unfold late_sort_fields in Hlate.
    apply list_elem_of_singleton in Hlate. subst.
    revert Hin. unfold sort_fields. by apply (bool_decide_unpack _). }
  split; [|split].
  - unfold _compose_sort_order. destruct (sort_by self) as [field|].
    + destruct (decide (field ∈ sort_fields)) as [Hin|Hin].
      * eexists. split; [done|]. split; [cbn; lia|].
        intros o ->%list_elem_of_singleton. exists field.
        split; [done|]. split; [done|].
        case_decide; [apply format_minus|done].
      * exists []. split; [done|]. split; [cbn; lia|]. by intros o ?%elem_of_nil.
    + exists []. split; [done|]. split; [cbn; lia|]. by intros o ?%elem_of_nil.
  - intros node_list Hchg. unfold late_sort in Hchg. unfold _compose_sort_order.
    destruct (sort_by self) as [field|]; [|done].
    destruct (decide (field ∈ late_sort_fields)) as [Hlate|]; [|done].
    destruct (decide (field ∈ sort_fields)) as [Hin|]; [|done].
    by apply Hex in Hin.
  - intros Hord node_list. unfold late_sort. unfold _compose_sort_order in Hord.
    destruct (sort_by self) as [field|]; [|done].
    destruct (decide (field ∈ sort_fields)) as [Hin|]; [|done].
    apply Hex in Hin. by rewrite decide_False.
Qed.

(** ** [NodeListView._prepare_sort_links] *)

Lemma link_params_again (params : gmap string (list string))
    (f d f' d' : string) :
  link_params (link_params params f d) f' d' = link_params params f' d'.
Proof.
  unfold link_params. apply map_eq. intros k.
  destruct (decide (k = "dir")) as [->|Hdir].
  { by rewrite !lookup_insert_eq. }
  rewrite !(lookup_insert_ne _ "dir") by done.
  destruct (decide (k = "sort")) as [->|Hsort].
  { by rewrite !lookup_insert_eq. }
  by rewrite !lookup_insert_ne by done.
Qed.

Lemma lookup_constant_map (v : string) (fields : list string) (f : string) :
  (list_to_map ((λ field, (field, v)) <$> fields) : gmap string string) !! f
  = if decide (f ∈ fields) then Some v else None.
Proof.
  induction fields as [|g fields IH]; cbn.
  - rewrite lookup_empty. by rewrite decide_False by apply not_elem_of_nil.
  - destruct (decide (g = f)) as [->|Hne].
    + rewrite lookup_insert_eq. by rewrite decide_True by apply list_elem_of_here.
    + rewrite lookup_insert_ne by done. rewrite IH.
      apply decide_ext. rewrite elem_of_cons. naive_solver.
Qed.

Lemma format_sort_class (s : string) :
  Py.format "sort-%s" [Py.ArgS s] = "sort-" +:+ s.
Proof. cbn. by rewrite string_app_empty_r. Qed.

Section PrepareSortLinksFacts.
Variable urlencode : gmap string (list string) → string.
Variable self : NodeListView.
Variable GET : gmap string (list string).

Lemma sort_link_loop_spec (reverse_dir : string) (fields : list string)
    (params : gmap string (list string)) (links classes : gmap string string) :
  NoDup fields →
  (∀ f d, link_params params f d = link_params GET f d) →
  (∀ f, f ∈ fields → links !! f = Some "?") →
  ∃ params' links' classes',
    sort_link_loop urlencode self reverse_dir (params, links, classes) fields
    = Ok (params', links', classes')
    ∧ (∀ f, f ∈ fields →
         links' !! f
         = Some ("?" +:+ urlencode
                   (link_params GET f
                      (if decide (sort_by self = Some f) then reverse_dir else "asc")))
         ∧ classes' !! f
           = if decide (sort_by self = Some f)
             then Some ("sort-" +:+ str_of_option (sort_dir self))
             else classes !! f)
    ∧ (∀ f, f ∉ fields → links' !! f = links !! f ∧ classes' !! f = classes !! f).
Proof.
  revert params links classes.
  induction fields as [|g fields IH]; intros params links classes Hnd Hpar Hlinks.
  - exists params, links, classes. split; [done|].
    split; [by intros f ?%elem_of_nil|done].
  - apply NoDup_cons in Hnd as [Hg Hnd]. cbn [sort_link_loop].
    unfold sort_link_step at 1.
    rewrite (Hlinks g) by apply list_elem_of_here. cbn [from_option].
    set (d := if decide (sort_by self = Some g) then reverse_dir else "asc").
    assert (Hstep :
      (let '(params0, classes0) :=
         if decide (Some g = sort_by self)
         then (<["dir":=[reverse_dir]]> (<["sort":=[g]]> params),
               <[g:=Py.format "sort-%s" [Py.ArgS (str_of_option (sort_dir self))]]>
                 classes)
         else (<["dir":=["asc"]]> (<["sort":=[g]]> params), classes) in
       Ok "?" ≫= (λ link : string,
         Ok (params0, <[g:=link +:+ urlencode params0]> links, classes0)))
      = Ok (link_params GET g d,
            <[g := "?" +:+ urlencode (link_params GET g d)]> links,
            if decide (sort_by self = Some g)
            then <[g := "sort-" +:+ str_of_option (sort_dir self)]> classes
            else classes)).
    { subst d.
      destruct (decide (Some g = sort_by self)) as [Heq|Hne],
               (decide (sort_by self = Some g)) as [Heq'|Hne'];
        try congruence; cbn -[Py.format]; rewrite ?format_sort_class.
      - fold (link_params params g reverse_dir). by rewrite Hpar.
      - fold (link_params params g "asc"). by rewrite Hpar. }
    rewrite Hstep. cbn [mbind result_bind].
    destruct (IH (link_params GET g d)
                (<[g := "?" +:+ urlencode (link_params GET g d)]> links)
                (if decide (sort_by self = Some g)
                 then <[g := "sort-" +:+ str_of_option (sort_dir self)]> classes
                 else classes))
      as (p' & l' & c' & Hrun & Hin & Hout); [done| |..].
    { intros f d'. apply link_params_again. }
    { intros f Hf. rewrite lookup_insert_ne; [by apply Hlinks; right|].
      intros ->. done. }
    exists p', l', c'. split; [exact Hrun|]. split.
    + intros f [->|Hf]%elem_of_cons.
      * destruct (Hout g Hg) as [Hl Hc]. rewrite Hl, Hc, lookup_insert_eq.
        split; [done|]. subst d. case_decide; [|done]. by rewrite lookup_insert_eq.
      * destruct (Hin f Hf) as [Hl Hc]. split; [done|]. rewrite Hc.
        case_decide; [done|]. case_decide; [|done].
        rewrite lookup_insert_ne; [done|]. intros ->. done.
    + intros f Hf. apply not_elem_of_cons in Hf as [Hne Hf].
      destruct (Hout f Hf) as [Hl Hc]. rewrite Hl, Hc.
      rewrite lookup_insert_ne by done. split; [done|].
      case_decide; [|done]. by rewrite lookup_insert_ne.
Qed.
End PrepareSortLinksFacts.

(** X3. The sort links never fail.  Every one of the eight fields, and
    nothing else, has a link and a class.  The link of a field is [?]
    followed by the encoding of the parameters of the request with [sort]
    set to that field and [dir] set to [asc], or, for the field the view
    sorts by, to the opposite of the current direction; what the loop left
    in the shared parameters for the fields before does not show in it.
    The class is [sort-none], or [sort-] and the current direction for the
    field the view sorts by. *)
Theorem prepare_sort_links_spec (urlencode : gmap string (list string) → string)
    (self : NodeListView) (GET : gmap string (list string)) :
  ∃ links classes : gmap string string,
    _prepare_sort_links urlencode self GET = Ok (links, classes)
    ∧ ∀ field : string,
        if decide (field ∈ sort_fields ++ late_sort_fields) then
          links !! field
          = Some ("?" +:+ urlencode (link_params GET field (link_dir self field)))
          ∧ classes !! field = Some (link_class self field)
        else links !! field = None ∧ classes !! field = None.
Proof.
  unfold _prepare_sort_links.
  edestruct (sort_link_loop_spec urlencode self GET
               (if decide (sort_dir self = Some "desc") then "asc" else "desc")
               (sort_fields ++ late_sort_fields) GET)
    as (p' & links & classes & Hrun & Hin & Hout); [| |..].
  { by apply (bool_decide_unpack _). }
  { done. }
  { intros f Hf. rewrite lookup_constant_map. by rewrite decide_True. }
  rewrite Hrun. cbn [mbind result_bind].
  exists links, classes. split; [done|]. intros field.
  destruct (decide (field ∈ sort_fields ++ late_sort_fields)) as [Hf|Hf].
  - destruct (Hin field Hf) as [Hl Hc]. rewrite Hl, Hc.
    unfold link_dir, link_class. split; [done|].
    case_decide; [done|]. rewrite lookup_constant_map. by rewrite decide_True.
  - destruct (Hout field Hf) as [Hl Hc]. rewrite Hl, Hc.
    rewrite !lookup_constant_map. by rewrite !decide_False.
Qed.

(** ** [generate_js_power_types] *)

#[local] Instance string_leb_antisymm :
  AntiSymm (=) (λ a b : string, String.leb a b = true).
Proof. intros a b Hab Hba. by apply String.leb_antisym. Qed.

Lemma format_quoted (s : string) :
  Py.format (Py.dquote +:+ "%s" +:+ Py.dquote) [Py.ArgS s]
  = Py.dquote +:+ s +:+ Py.dquote.
Proof. reflexivity. Qed.

Lemma format_bracketed (s : string) :
  Py.format ("[" +:+ newline +:+ "%s" +:+ newline +:+ "]") [Py.ArgS s]
  = "[" +:+ newline +:+ s +:+ newline +:+ "]".
Proof. reflexivity. Qed.

(** X4. The JavaScript array of the power types does not depend on the
    order in which the power types are enumerated: it lists them, each
    between double quotes, one per line, sorted, between a line with the
    opening bracket and a line with the closing bracket. *)
Theorem generate_js_power_types_sorted {NodeGroup : Type}
    (get_power_types get_power_types' : option (list NodeGroup) → list string)
    (nodegroup : option NodeGroup) :
  (∀ arg, get_power_types arg ≡ₚ get_power_types' arg) →
  generate_js_power_types get_power_types nodegroup
  = generate_js_power_types get_power_types' nodegroup
  ∧ ∃ names : list string,
      names ≡ₚ get_power_types (option_map (λ ng, [ng]) nodegroup)
      ∧ StronglySorted (λ a b, String.leb a b = true) names
      ∧ generate_js_power_types get_power_types nodegroup
        = "[" +:+ newline +:+
          Py.join ("," +:+ newline)
            ((λ name, Py.dquote +:+ name +:+ Py.dquote) <$> names) +:+
          newline +:+ "]".
Proof.
  intros Hperm. unfold generate_js_power_types.
  assert (Harg : match nodegroup with Some ng => Some [ng] | None => None end
                 = option_map (λ ng, [ng]) nodegroup) by by destruct nodegroup.
  rewrite Harg. set (arg := option_map (λ ng, [ng]) nodegroup).
  assert (Hsorted : ∀ l, StronglySorted (λ a b, String.leb a b = true)
                           (sorted_le String.leb l)).
  { intros l. apply sorted_le_sorted.
    - apply String.leb_total.
    - apply string_leb_trans. }
  split.
  - assert (sorted_le String.leb (get_power_types arg)
            = sorted_le String.leb (get_power_types' arg)) as ->; [|done].
    apply (StronglySorted_unique (λ a b, String.leb a b = true)); [done..|].
    by rewrite !sorted_le_perm.
  - exists (sorted_le String.leb (get_power_types arg)).
    split; [apply sorted_le_perm|]. split; [done|].
    rewrite format_bracketed.
    rewrite (map_ext _ (λ name, Py.dquote +:+ name +:+ Py.dquote)); [done|].
    intros name. apply format_quoted.
Qed.

Lemma generate_js_power_types_sorted_witness :
  generate_js_power_types example_power_types None
  = generate_js_power_types example_power_types' None
  ∧ ∃ names : list string,
      names ≡ₚ example_power_types (option_map (λ ng, [ng]) None)
      ∧ StronglySorted (λ a b, String.leb a b = true) names
      ∧ generate_js_power_types example_power_types None
        = "[" +:+ newline +:+
          Py.join ("," +:+ newline)
            ((λ name, Py.dquote +:+ name +:+ Py.dquote) <$> names) +:+
          newline +:+ "]".
Proof.
  apply (generate_js_power_types_sorted example_power_types example_power_types' None).
  intros arg. unfold example_power_types, example_power_types'.
  by apply (bool_decide_unpack _).
Defined.

Example generate_js_power_types_example :
  generate_js_power_types example_power_types None
  = "[" +:+ newline +:+
    Py.dquote +:+ "amt" +:+ Py.dquote +:+ "," +:+ newline +:+
    Py.dquote +:+ "ether_wake" +:+ Py.dquote +:+ "," +:+ newline +:+
    Py.dquote +:+ "ipmi" +:+ Py.dquote +:+ "," +:+ newline +:+
    Py.dquote +:+ "virsh" +:+ Py.dquote +:+ newline +:+ "]"
  ∧ generate_js_power_types (λ _ : option (list unit), []) None
    = "[" +:+ newline +:+ newline +:+ "]".
Proof. by vm_compute. Qed.

(** ** [construct_third_party_drivers_notice] *)

Lemma occurs_app (c : ascii) (s t : string) :
  occurs c (s +:+ t) = occurs c s || occurs c t.
Proof.
  induction s as [|d s IH]; [done|].
  rewrite string_app_cons. cbn. by rewrite IH, orb_assoc.
Qed.

Lemma replace_char_removes (old : ascii) (new s : string) :
  occurs old new = false → occurs old (replace_char old new s) = false.
Proof.
  intros Hnew. induction s as [|c s IH]; [done|]. cbn.
  destruct (Ascii.eqb c old) eqn:Hc.
  - by rewrite occurs_app, Hnew, IH.
  - cbn. by rewrite Hc, IH.
Qed.

Lemma replace_char_keeps_out (c old : ascii) (new s : string) :
  occurs c new = false → occurs c s = false →
  occurs c (replace_char old new s) = false.
Proof.
  intros Hnew. induction s as [|d s IH]; [done|]. cbn.
  intros [Hd Hs]%orb_false_iff. destruct (Ascii.eqb d old).
  - by rewrite occurs_app, Hnew, IH.
  - cbn. by rewrite Hd, IH.
Qed.

Lemma replace_char_absent (old : ascii) (new s : string) :
  occurs old s = false → replace_char old new s = s.
Proof.
  induction s as [|c s IH]; [done|]. cbn.
  intros [Hc Hs]%orb_false_iff. by rewrite Hc, IH.
Qed.

Lemma escape_clean (s : string) :
  occurs "<" (escape s true) = false
  ∧ occurs ">" (escape s true) = false
  ∧ occurs "034" (escape s true) = false.
Proof.
  unfold escape. split; [|split].
  - apply replace_char_keeps_out; [done|].
    apply replace_char_keeps_out; [done|].
    by apply replace_char_removes.
  - apply replace_char_keeps_out; [done|]. by apply replace_char_removes.
  - by apply replace_char_removes.
Qed.

Lemma format_admin_notice (s : string) :
  Py.format THIRD_PARTY_DRIVERS_ADMIN_NOTICE [Py.ArgS s]
  = admin_notice_before +:+ s +:+ admin_notice_after.
Proof. reflexivity. Qed.

(** X5. For every address of the settings page, the notice for an
    administrator is the notice for the other users followed by the
    sentence with the link, and between the two double quotes of the
    [href] attribute stands the escaped address followed by the fragment:
    the escaped address holds no double quote and no angle bracket, so it
    cannot close the attribute or the tag, and it is the address itself
    when the address has none of the four characters that are escaped. *)
Theorem third_party_drivers_notice_safe (settings_url : string) :
  construct_third_party_drivers_notice settings_url false
  = THIRD_PARTY_DRIVERS_NOTICE
  ∧ construct_third_party_drivers_notice settings_url true
    = THIRD_PARTY_DRIVERS_NOTICE +:+ admin_notice_before +:+
      escape settings_url true +:+ admin_notice_after
  ∧ occurs "034" (escape settings_url true) = false
  ∧ occurs "<" (escape settings_url true) = false
  ∧ occurs ">" (escape settings_url true) = false
  ∧ (occurs "&" settings_url = false → occurs "<" settings_url = false →
     occurs ">" settings_url = false → occurs "034" settings_url = false →
     escape settings_url true = settings_url).
Proof.
  destruct (escape_clean settings_url) as (Hlt & Hgt & Hq).
  split; [done|]. split.
  { unfold construct_third_party_drivers_notice. by rewrite format_admin_notice. }
  split; [done|]. split; [done|]. split; [done|].
  intros Ha Hl Hg Hd. unfold escape.
  by rewrite (replace_char_absent "&"), (replace_char_absent "<"),
    (replace_char_absent ">"), (replace_char_absent "034").
Qed.

Example third_party_drivers_notice_example :
  escape ("/settings/?a=1&b=" +:+ Py.dquote +:+ "<x>") true
  = "/settings/?a=1&amp;b=&quot;&lt;x&gt;"
  ∧ escape "/MAAS/settings/" true = "/MAAS/settings/".
Proof. by vm_compute. Qed.

(** ** The installation results of the node view *)

Lemma sub_underscore_dot_cons (c : ascii) (name : string) :
  sub_underscore_dot (String c name)
  = String (underscore_dot_to_space c) (sub_underscore_dot name).
Proof.
  unfold underscore_dot_to_space. cbn [sub_underscore_dot].
  by destruct (Ascii.eqb c "_" || Ascii.eqb c ".").
Qed.

Lemma sub_underscore_dot_get (name : string) (i : nat) :
  String.get i (sub_underscore_dot name)
  = underscore_dot_to_space <$> String.get i name.
Proof.
  revert i. induction name as [|c name IH]; intros i; [done|].
  rewrite sub_underscore_dot_cons. destruct i as [|i]; cbn; [done|apply IH].
Qed.

Lemma sub_underscore_dot_clean (name : string) :
  occurs "_" (sub_underscore_dot name) = false
  ∧ occurs "." (sub_underscore_dot name) = false
  ∧ String.length (sub_underscore_dot name) = String.length name.
Proof.
  induction name as [|c name (IH1 & IH2 & IH3)]; [done|].
  rewrite sub_underscore_dot_cons. unfold underscore_dot_to_space.
  cbn [occurs String.length]. rewrite IH1, IH2, IH3.
  destruct (Ascii.eqb c "_") eqn:Hu; [done|].
  destruct (Ascii.eqb c ".") eqn:Hd; [done|]. cbn. by rewrite Hu, Hd.
Qed.

(** X6. The node view puts the installation results in the context when
    there is at least one, and only then; it puts all of them, in their
    order and with their data.  A single result is named [install log].
    With several results, the name of each is its name with every
    underscore and every dot replaced by a space and every other
    character kept, at its place.  So no name it shows holds an underscore
    or a dot. *)
Theorem nodeinstallresults_names (installation_results : list NodeResult) :
  match nodeinstallresults installation_results with
  | None => installation_results = []
  | Some shown =>
      installation_results ≠ []
      ∧ result_data <$> shown = result_data <$> installation_results
      ∧ Forall (λ result, occurs "_" (result_name result) = false
                          ∧ occurs "." (result_name result) = false) shown
      ∧ (length installation_results = 1%nat →
         result_name <$> shown = ["install log"])
      ∧ ((1 < length installation_results)%nat →
         Forall2 (λ result result',
                    String.length (result_name result')
                    = String.length (result_name result)
                    ∧ ∀ i : nat,
                        String.get i (result_name result')
                        = underscore_dot_to_space
                            <$> String.get i (result_name result))
                 installation_results shown)
  end.
Proof.
  unfold nodeinstallresults.
  destruct installation_results as [|r1 [|r2 rest]]; [done| |].
  - cbn. split; [done|]. split; [done|]. split; [by repeat constructor|].
    split; [done|]. intros; lia.
  - set (l := r1 :: r2 :: rest).
    assert ((1 <? length l)%nat = true) as -> by (apply Nat.ltb_lt; cbn; lia).
    split; [done|]. split.
    { change (map ?f ?x) with (f <$> x). rewrite <- list_fmap_compose.
      by apply list_fmap_ext. }
    split.
    { apply Forall_forall. intros r Hr.
      change (map ?f ?x) with (f <$> x) in Hr.
      apply list_elem_of_fmap in Hr as (r0 & -> & _). cbn.
      destruct (sub_underscore_dot_clean (result_name r0)) as (? & ? & _).
      by split. }
    split; [cbn; intros; lia|]. intros _.
    change (map ?f ?x) with (f <$> x). apply Forall2_fmap_r, Forall_Forall2_diag.
    apply Forall_forall. intros r _. cbn. split.
    + by destruct (sub_underscore_dot_clean (result_name r)) as (_ & _ & ->).
    + intros i. apply sub_underscore_dot_get.
Qed.

Example nodeinstallresults_example :
  nodeinstallresults
    [ {| result_name := "curtin_install.log"; result_data := "a" |};
      {| result_name := "cloud-init.out"; result_data := "b" |} ]
  = Some [ {| result_name := "curtin install log"; result_data := "a" |};
           {| result_name := "cloud-init out"; result_data := "b" |} ]
  ∧ nodeinstallresults
      [ {| result_name := "curtin_install.log"; result_data := "a" |} ]
    = Some [ {| result_name := "install log"; result_data := "a" |} ]
  ∧ nodeinstallresults [] = None.
Proof. by vm_compute. Qed.

(** ** [NodeListView.get_queryset] *)

(** X7. The node list never raises: the query is parsed only when there is
    one.  Without a query, or with an empty one, the form is not consulted
    and the list is all the nodes the user may view, in the order of the
    request, with their MACs configured.  With a query the form rejects,
    the list is empty and the error of the view is the errors of the form,
    field by field, its other attributes staying as they are.  With a query the
    form accepts, the list is what the form keeps of these nodes, with
    their MACs configured. *)
Theorem get_queryset_cases {QD User : Type} (QueryDict : string → QD)
    (AcquireNodeForm_Strict : QD → Form) (rename_fields : Form → Form)
    (registration_org : string → option string)
    (get_nodes : User → NODE_PERMISSION → list Node)
    (order_by : list string → list Node → list Node)
    (self : NodeListView) (user : User) :
  let visible := order_by (_compose_sort_order self) (get_nodes user VIEW) in
  let run := get_queryset QueryDict AcquireNodeForm_Strict rename_fields
               registration_org get_nodes order_by self user in
  (∃ self' nodes, run = Ok (self', nodes))
  ∧ (query self = None ∨ query self = Some EmptyString →
     run = Ok (self, configure_macs registration_org visible))
  ∧ (∀ q, query self = Some q → q ≠ EmptyString →
       let form := rename_fields (AcquireNodeForm_Strict
                                    (_parse_constraints QueryDict q)) in
       run = if is_valid form
             then Ok (self, configure_macs registration_org
                              (filter_nodes form visible))
             else Ok ({| query := query self;
                         query_error :=
                           Some (described_query_error (errors form));
                         sort_by := sort_by self;
                         sort_dir := sort_dir self |}, [])).
Proof.
  intros visible run.
  assert (Hnone : query self = None ∨ query self = Some EmptyString →
                  run = Ok (self, configure_macs registration_org visible)).
  { intros Hq. subst run. unfold get_queryset.
    rewrite bool_decide_eq_false_2; [done|]. intros [? ?]. by destruct Hq. }
  assert (Hsome : ∀ q, query self = Some q → q ≠ EmptyString →
       let form := rename_fields (AcquireNodeForm_Strict
                                    (_parse_constraints QueryDict q)) in
       run = if is_valid form
             then Ok (self, configure_macs registration_org
                              (filter_nodes form visible))
             else Ok ({| query := query self;
                         query_error :=
                           Some (described_query_error (errors form));
                         sort_by := sort_by self;
                         sort_dir := sort_dir self |}, [])).
  { intros q Hq Hne form. subst run. unfold get_queryset.
    rewrite bool_decide_eq_true_2 by (rewrite Hq; split; congruence).
    unfold _constrain_nodes, set_query_error. rewrite Hq. fold form.
    destruct (is_valid form); [done|]. cbn [mbind result_bind].
    unfold prefetch_nodes_listing, described_query_error. cbn [configure_macs map].
    rewrite (map_ext _ (λ fe : string * list string,
                          fe.1 +:+ ": " +:+ Py.join ", " fe.2)); [done|].
    intros [field errs]. apply format_field_errors. }
  split; [|by split].
  destruct (query self) as [q|] eqn:Hq.
  - destruct (decide (q = EmptyString)) as [->|Hne].
    + rewrite Hnone by by right. by eexists _, _.
    + rewrite (Hsome q eq_refl Hne). cbn zeta.
      destruct (is_valid _); by eexists _, _.
  - rewrite Hnone by by left. by eexists _, _.
Qed.

(** ** More on [message_from_form_stats] *)

Lemma format_subject (rest subject : string) (args : list Py.fmt_arg) :
  Py.format (String "%" (String "s" rest)) (Py.ArgS subject :: args)
  = subject +:+ Py.format rest args.
Proof. reflexivity. Qed.

Lemma join_cons_app (sep subject rest : string) (l : list string) :
  ∃ rest', Py.join sep ((subject +:+ rest) :: l) = subject +:+ rest'.
Proof.
  destruct l as [|x l]; cbn [Py.join]; [by eexists|].
  rewrite string_app_assoc. by eexists.
Qed.

(** X8. The message is empty exactly when the three counts are zero, and
    otherwise it starts with the full name of the action. *)
Theorem message_from_form_stats_empty (action : Action)
    (done not_actionable not_permitted : Z) :
  (message_from_form_stats action done not_actionable not_permitted = EmptyString
   ↔ done = 0 ∧ not_actionable = 0 ∧ not_permitted = 0)
  ∧ (¬ (done = 0 ∧ not_actionable = 0 ∧ not_permitted = 0) →
     ∃ rest, message_from_form_stats action done not_actionable not_permitted
             = full_action_name action +:+ rest).
Proof.
  assert (Hname : ¬ (done = 0 ∧ not_actionable = 0 ∧ not_permitted = 0) →
     ∃ rest, message_from_form_stats action done not_actionable not_permitted
             = full_action_name action +:+ rest).
  { intros Hnz. unfold message_from_form_stats.
    rewrite format_action_name. fold (full_action_name action).
    generalize (full_action_name action) as name. intros name.
    unfold done_templates, not_actionable_templates, not_permitted_templates.
    cbv [String.append].
    cbn [fold_left]. unfold message_step.
    destruct (Z.eqb_spec done 0) as [->|Hd],
             (Z.eqb_spec not_actionable 0) as [->|Hna],
             (Z.eqb_spec not_permitted 0) as [->|Hnp];
      cbn [negb app]; try (exfalso; by apply Hnz);
      repeat match goal with
             | |- context [Z.eqb ?x 1] => destruct (Z.eqb x 1)
             end;
      rewrite format_subject; apply join_cons_app. }
  split; [|done]. split.
  - intros Hempty.
    destruct (decide (done = 0 ∧ not_actionable = 0 ∧ not_permitted = 0))
      as [|Hnz]; [done|].
    destruct (Hname Hnz) as [rest Hrest]. rewrite Hrest in Hempty.
    discriminate Hempty.
  - by intros (-> & -> & ->).
Qed.

Lemma message_from_form_stats_empty_witness :
  ∃ rest, message_from_form_stats {| display_bulk := "Power on" |} 0 3 0
          = full_action_name {| display_bulk := "Power on" |} +:+ rest.
Proof.
  apply (proj2 (message_from_form_stats_empty {| display_bulk := "Power on" |} 0 3 0)).
  intros (_ & H & _). discriminate H.
Defined.

(** ** More on [_parse_constraints] *)

Lemma split_go_app_space (cur a b : string) (c : ascii) :
  Py.is_space c = true →
  Py.split_go cur (a +:+ String c b)
  = Py.split_go cur a ++ Py.split_go EmptyString b.
Proof.
  intros Hc. revert cur. induction a as [|d a IH]; intros cur.
  - rewrite string_app_empty_l. cbn. by rewrite Hc.
  - rewrite string_app_cons. cbn. destruct (Py.is_space d).
    + by rewrite IH, app_assoc.
    + apply IH.
Qed.

Lemma split_go_token (cur t : string) :
  has_space t = false → Py.is_empty (cur +:+ t) = false →
  Py.split_go cur t = [cur +:+ t].
Proof.
  revert cur. induction t as [|c t IH]; intros cur Hsp Hne.
  - rewrite string_app_empty_r in *. cbn. by rewrite Hne.
  - cbn in Hsp. apply orb_false_iff in Hsp as [Hc Hsp]. cbn. rewrite Hc.
    rewrite IH; [|done|].
    + by rewrite string_app_assoc.
    + rewrite string_app_assoc. destruct cur; done.
Qed.

Lemma split_go_blank (s : string) :
  without_spaces s = EmptyString → Py.split_go EmptyString s = [].
Proof.
  induction s as [|c s IH]; [done|]. cbn.
  destruct (Py.is_space c); [|done]. intros H. by rewrite IH.
Qed.

Lemma parsed_constraints_tokens (query_string : string) :
  parsed_constraints query_string
  = omap described_constraint (Py.split query_string).
Proof.
  unfold parsed_constraints. by rewrite split_strip, fold_constraint_step.
Qed.

Lemma described_constraint_shape (token c : string) :
  described_constraint token = Some c →
  occurs "=" c = true ∧ has_space c = has_space token.
Proof.
  unfold described_constraint.
  destruct (Py.partition "=" token) as [[k v]|] eqn:Hp.
  - case_decide; [done|]. intros [= <-].
    apply partition_some in Hp as [-> _].
    split; [|done]. rewrite occurs_app. cbn. by rewrite orb_true_r.
  - intros [= <-]. split.
    + rewrite occurs_app. cbn. by rewrite orb_true_r.
    + rewrite has_space_app. cbn. by rewrite orb_false_r.
Qed.

(** X9. Parsing goes token by token: the constraints of two queries
    written one after the other with white space between them are the
    constraints of the first followed by those of the second, so a token
    with the value [any] added to a query changes nothing.  Every
    constraint holds an equals sign and no white space, and a query of
    white space only gives no constraint. *)
Theorem parsed_constraints_compose :
  (∀ (q1 q2 : string) (c : ascii), Py.is_space c = true →
     parsed_constraints (q1 +:+ String c q2)
     = parsed_constraints q1 ++ parsed_constraints q2)
  ∧ (∀ (q key : string), occurs "=" key = false → has_space key = false →
       parsed_constraints (q +:+ " " +:+ key +:+ "=any") = parsed_constraints q)
  ∧ (∀ q : string,
       Forall (λ c, occurs "=" c = true ∧ has_space c = false)
              (parsed_constraints q))
  ∧ (∀ q : string, without_spaces q = EmptyString → parsed_constraints q = []).
Proof.
  assert (Happ : ∀ (q1 q2 : string) (c : ascii), Py.is_space c = true →
     parsed_constraints (q1 +:+ String c q2)
     = parsed_constraints q1 ++ parsed_constraints q2).
  { intros q1 q2 c Hc. rewrite !parsed_constraints_tokens. unfold Py.split.
    by rewrite split_go_app_space, omap_app. }
  split; [done|]. split; [|split].
  - intros q key Hkey Hsp.
    change (q +:+ " " +:+ key +:+ "=any")
      with (q +:+ String " " (key +:+ "=any")).
    rewrite Happ by done.
    assert (parsed_constraints (key +:+ "=any") = []) as ->.
    { rewrite parsed_constraints_tokens. unfold Py.split.
      rewrite split_go_token.
      - rewrite string_app_empty_l. cbn.
        assert (described_constraint (key +:+ "=any") = None) as ->; [|done].
        unfold described_constraint.
        by rewrite (proj2 (partition_some "=" (key +:+ "=any") key "any")
                      (conj eq_refl Hkey)).
      - rewrite has_space_app, Hsp. done.
      - rewrite string_app_empty_l. by destruct key. }
    by rewrite app_nil_r.
  - intros q. rewrite parsed_constraints_tokens.
    pose proof (split_go_tokens EmptyString q eq_refl) as Htok.
    fold (Py.split q) in Htok.
    apply Forall_forall. intros c Hc.
    apply list_elem_of_omap in Hc as (token & Htoken & Hdesc).
    rewrite Forall_forall in Htok. destruct (Htok token Htoken) as [_ Hsp].
    destruct (described_constraint_shape token c Hdesc) as [Heq Hsp'].
    split; [done|]. by rewrite Hsp'.
  - intros q Hblank. rewrite parsed_constraints_tokens. unfold Py.split.
    by rewrite split_go_blank.
Qed.

(** ** More on migration 0240 *)

Lemma fix_entry_cases (keys : gmap Z (gset string)) (entry : OwnerData) :
  (∃ out, fix_entry keys entry = Ok out) ∨ fix_entry keys entry = Raise KeyError.
Proof.
  unfold fix_entry. destruct (keys !! node_id entry) as [nk|]; [|by right].
  cbn -[while_in]. case_decide; [|by right]. cbn -[while_in].
  destruct (while_in_terminates (nk ∖ {[key entry]})
              (REPLACE_RE_sub "_" (key entry))) as (n & -> & _).
  left. by eexists.
Qed.

Lemma fix_entries_cases (db_word : ascii → bool) (table : list OwnerData)
    (keys : gmap Z (gset string)) :
  (∃ table', fix_entries db_word keys table = Ok table')
  ∨ fix_entries db_word keys table = Raise KeyError.
Proof.
  revert keys. induction table as [|entry rest IH]; intros keys.
  - left. by eexists.
  - rewrite fix_entries_cons. destruct (key_regex db_word (key entry)).
    + destruct (IH keys) as [[rest' ->]| ->]; [left; by eexists|by right].
    + destruct (fix_entry_cases keys entry) as [[[keys' entry'] ->]| ->];
        [|by right]. cbn [mbind result_bind].
      destruct (IH keys') as [[rest' ->]| ->]; [left; by eexists|by right].
Qed.

(** X10. Whatever the database reads as [\w], the migration fails in one
    way only: with the [KeyError] of [remove], and only on a table in
    which a node has the same key twice.  The loop that appends
    underscores always ends. *)
Theorem fix_ownerdata_keys_failure (db_word : ascii → bool)
    (table : list OwnerData) (e : exn) :
  fix_ownerdata_keys db_word table = Raise e →
  e = KeyError ∧ ¬ keys_distinct table.
Proof.
  intros Hfail. split.
  - unfold fix_ownerdata_keys in Hfail.
    destruct (fix_entries_cases db_word table (existing_node_keys table))
      as [[table' Hok]|Hraise]; congruence.
  - intros Hdist.
    destruct (fix_ownerdata_keys_sound db_word table Hdist) as (t & Hok & _).
    congruence.
Qed.

Lemma fix_ownerdata_keys_failure_witness :
  KeyError = KeyError ∧ ¬ keys_distinct duplicate_key_table.
Proof.
  apply (fix_ownerdata_keys_failure latin1_letters_word duplicate_key_table
           KeyError).
  by vm_compute.
Defined.

(** X11. Whatever the database reads as [\w], the migration can be run
    again: on a table where no node has a key twice it ends with a table
    that a second run of the migration leaves exactly as it is. *)
Theorem fix_ownerdata_keys_idempotent (db_word : ascii → bool)
    (table : list OwnerData) :
  keys_distinct table →
  ∃ table' : list OwnerData,
    fix_ownerdata_keys db_word table = Ok table'
    ∧ fix_ownerdata_keys db_word table' = Ok table'.
Proof.
  intros Hdist.
  destruct (fix_ownerdata_keys_sound db_word table Hdist)
    as (table' & Hrun & Hlen & Hdist' & Hrows).
  exists table'. split; [done|].
  unfold fix_ownerdata_keys.
  apply (fix_entries_settled db_word table' []); [|done|].
  - apply existing_node_keys_agree.
  - apply Forall_lookup. intros i row' Hrow'.
    destruct (table !! i) as [row|] eqn:Hrow.
    + destruct (Hrows i row Hrow) as (row'' & Hrow'' & Hrew).
      simplify_eq. by eapply rewritten_key_settled.
    + apply lookup_ge_None in Hrow. apply lookup_lt_Some in Hrow'. lia.
Qed.

Lemma fix_ownerdata_keys_idempotent_witness :
  ∃ table' : list OwnerData,
    fix_ownerdata_keys latin1_letters_word
      (bad_key_table ++ latin1_key_table) = Ok table'
    ∧ fix_ownerdata_keys latin1_letters_word table' = Ok table'.
Proof.
  apply (fix_ownerdata_keys_idempotent latin1_letters_word
           (bad_key_table ++ latin1_key_table)).
  unfold keys_distinct. by apply (bool_decide_unpack _).
Defined.

Lemma node_keys_of_rows_of_node (table : list OwnerData) (n : Z) :
  node_keys_of (rows_of_node n table) n = node_keys_of table n.
Proof.
  apply set_eq. intros k. rewrite !elem_of_node_keys_of. unfold rows_of_node.
  setoid_rewrite list_elem_of_filter. naive_solver.
Qed.

Lemma keys_distinct_rows_of_node (table : list OwnerData) (n : Z) :
  keys_distinct table → keys_distinct (rows_of_node n table).
Proof.
  unfold keys_distinct, rows_of_node. intros Hnd.
  eapply sublist_NoDup; [exact Hnd|]. apply fmap_sublist, sublist_filter.
Qed.

Lemma rows_of_node_middle (n : Z) (pre rest : list OwnerData) (row : OwnerData) :
  rows_of_node n (pre ++ row :: rest)
  = rows_of_node n pre
    ++ (if decide (node_id row = n) then [row] else []) ++ rows_of_node n rest.
Proof.
  unfold rows_of_node. rewrite filter_app, filter_cons. by case_decide.
Qed.

Lemma rows_of_node_snoc (n : Z) (pre : list OwnerData) (row : OwnerData) :
  rows_of_node n (pre ++ [row])
  = rows_of_node n pre ++ (if decide (node_id row = n) then [row] else []).
Proof.
  rewrite rows_of_node_middle.
  assert (rows_of_node n [] = []) as -> by done. by rewrite app_nil_r.
Qed.

Lemma fix_entries_rows_of_node (db_word : ascii → bool) (n : Z)
    (rest pre : list OwnerData) (keys keysn : gmap Z (gset string)) :
  keys_agree keys (pre ++ rest) →
  keys_distinct (pre ++ rest) →
  keys_agree keysn (rows_of_node n pre ++ rows_of_node n rest) →
  ∃ rest' : list OwnerData,
    fix_entries db_word keys rest = Ok rest'
    ∧ fix_entries db_word keysn (rows_of_node n rest) = Ok (rows_of_node n rest').
Proof.
  revert pre keys keysn.
  induction rest as [|entry rest IH]; intros pre keys keysn Hagree Hdist Hagreen.
  - by exists [].
  - assert (Hcons : ∀ l, rows_of_node n (entry :: l)
              = (if decide (node_id entry = n) then [entry] else [])
                ++ rows_of_node n l).
    { intros l. unfold rows_of_node. rewrite filter_cons. by case_decide. }
    rewrite fix_entries_cons. destruct (key_regex db_word (key entry)) eqn:Hre.
    + destruct (IH (pre ++ [entry]) keys keysn) as (rest' & Hrun & Hrunn).
      { by rewrite <- app_assoc. } { by rewrite <- app_assoc. }
      { rewrite rows_of_node_snoc, <- app_assoc. by rewrite <- Hcons. }
      exists (entry :: rest'). rewrite Hrun. split; [done|].
      rewrite !Hcons. case_decide; [|done]. cbn [app].
      rewrite fix_entries_cons, Hre, Hrunn. done.
    + destruct (fix_entry_spec pre rest keys entry Hagree Hdist)
        as (n1 & Hrun1 & Hout1 & Hbelow1 & Hagree1 & Hdist1).
      cbn zeta in Hrun1, Hout1, Hbelow1, Hagree1, Hdist1.
      set (entry' := {| node_id := node_id entry;
                        key := REPLACE_RE_sub "_" (key entry) +:+ underscores n1;
                        value := value entry |}) in *.
      rewrite Hrun1. cbn [mbind result_bind].
      destruct (decide (node_id entry = n)) as [Hn|Hn].
      * rewrite Hcons in Hagreen. cbn [app] in Hagreen.
        assert (Hdistn : keys_distinct (rows_of_node n pre
                                        ++ entry :: rows_of_node n rest)).
        { pose proof (keys_distinct_rows_of_node _ n Hdist) as Hd.
          rewrite rows_of_node_middle, decide_True in Hd by done. exact Hd. }
        destruct (fix_entry_spec (rows_of_node n pre) (rows_of_node n rest)
                    keysn entry Hagreen Hdistn)
          as (n2 & Hrun2 & Hout2 & Hbelow2 & Hagree2 & _).
        cbn zeta in Hrun2, Hout2, Hbelow2, Hagree2.
        assert (Hsame : node_keys_of (rows_of_node n pre ++ rows_of_node n rest)
                          (node_id entry)
                        = node_keys_of (pre ++ rest) (node_id entry)).
        { rewrite Hn. unfold rows_of_node at 1 2. rewrite <- filter_app.
          apply node_keys_of_rows_of_node. }
        rewrite Hsame in *.
        assert (n2 = n1) as ->.
        { destruct (Nat.lt_trichotomy n2 n1) as [Hlt|[->|Hlt]]; [|done|].
          - by apply Hbelow1 in Hlt.
          - by apply Hbelow2 in Hlt. }
        fold entry' in Hrun2, Hagree2.
        match type of Hagree1 with keys_agree ?keys' _ =>
          match type of Hagree2 with keys_agree ?keysn' _ =>
            destruct (IH (pre ++ [entry']) keys' keysn') as (rest' & Hrun & Hrunn)
          end
        end.
        { by rewrite <- app_assoc. } { by rewrite <- app_assoc. }
        { rewrite rows_of_node_snoc, decide_True by done.
          by rewrite <- app_assoc. }
        exists (entry' :: rest'). rewrite Hrun. split; [done|].
        rewrite (Hcons rest). cbn [app].
        rewrite fix_entries_cons, Hre, Hrun2. cbn [mbind result_bind].
        rewrite Hrunn. cbn [mbind result_bind].
        unfold rows_of_node at 2. by rewrite filter_cons, decide_True.
      * rewrite Hcons in Hagreen. cbn [app] in Hagreen.
        match type of Hagree1 with keys_agree ?keys' _ =>
          destruct (IH (pre ++ [entry']) keys' keysn) as (rest' & Hrun & Hrunn)
        end.
        { by rewrite <- app_assoc. } { by rewrite <- app_assoc. }
        { rewrite rows_of_node_snoc, decide_False by done.
          by rewrite app_nil_r. }
        exists (entry' :: rest'). rewrite Hrun. split; [done|].
        rewrite (Hcons rest). cbn [app]. rewrite Hrunn.
        unfold rows_of_node at 2. by rewrite filter_cons, decide_False.
Qed.

(** X12. Whatever the database reads as [\w], the nodes do not
    interfere: on a table where no node has a key twice, what the
    migration makes of the rows of a node is what it makes of these rows
    when they are alone in the table. *)
Theorem fix_ownerdata_keys_per_node (db_word : ascii → bool)
    (table : list OwnerData) (n : Z) :
  keys_distinct table →
  ∃ table' : list OwnerData,
    fix_ownerdata_keys db_word table = Ok table'
    ∧ fix_ownerdata_keys db_word (rows_of_node n table)
      = Ok (rows_of_node n table').
Proof.
  intros Hdist. unfold fix_ownerdata_keys.
  apply (fix_entries_rows_of_node db_word n table []); [|done|].
  - apply existing_node_keys_agree.
  - apply existing_node_keys_agree.
Qed.

Lemma fix_ownerdata_keys_per_node_witness :
  ∃ table' : list OwnerData,
    fix_ownerdata_keys latin1_letters_word bad_key_table = Ok table'
    ∧ fix_ownerdata_keys latin1_letters_word (rows_of_node 1 bad_key_table)
      = Ok (rows_of_node 1 table').
Proof.
  apply (fix_ownerdata_keys_per_node latin1_letters_word bad_key_table 1).
  unfold keys_distinct. by apply (bool_decide_unpack _).
Defined.

(** ** More on the events of the node view *)

(** X13. The events the node view lists are the newest of the node that
    are not of level DEBUG: no such event that is left out has a greater
    id than one that is listed; and when the node has at most five such
    events, all of them are listed. *)
Theorem node_view_lists_newest (events : list Event) (node : Node) :
  (∀ e e' : Event,
     e ∈ NodeView_event_list events node →
     e' ∈ events → event_node e' = Some (system_id node) →
     type_level e' ≠ logging_DEBUG →
     e' ∉ NodeView_event_list events node →
     event_id e' ≤ event_id e)
  ∧ ((length (exclude_level logging_DEBUG (events_of_node events node)) ≤ 5)%nat →
     NodeView_event_list events node
     ≡ₚ exclude_level logging_DEBUG (events_of_node events node)).
Proof.
  unfold NodeView_event_list, number_of_events_shown.
  set (shown := exclude_level logging_DEBUG (events_of_node events node)).
  pose proof (order_by_minus_id_sorted shown) as Hsorted.
  assert (Hperm : order_by_minus_id shown ≡ₚ shown) by apply sorted_perm.
  split.
  - intros e e' He He' Hnode Hlevel Hout.
    rewrite <- (take_drop 5 (order_by_minus_id shown)) in Hsorted.
    apply (StronglySorted_app_1_elem_of _ _ _ e e' Hsorted He).
    assert (Hin : e' ∈ order_by_minus_id shown).
    { rewrite Hperm. subst shown. unfold exclude_level, events_of_node.
      rewrite !list_elem_of_filter. done. }
    rewrite <- (take_drop 5 (order_by_minus_id shown)) in Hin.
    apply elem_of_app in Hin as [Hin|Hin]; done.
  - intros Hlen. rewrite take_ge; [done|].
    by rewrite (Permutation_length Hperm).
Qed.

(** ** More on [configure_macs] *)

Lemma insert_by_least {A} (key : A → Z) (x : A) (l : list A) :
  Forall (λ y, key x ≤ key y) l → Py.insert_by key x l = x :: l.
Proof.
  destruct 1 as [|y l Hy _]; cbn; [done|].
  by destruct (Z.leb_spec (key x) (key y)); [|lia].
Qed.

Lemma sorted_first_least {A} (key : A → Z) (l1 l2 : list A) (m : A) :
  Forall (λ x, key m < key x) l1 →
  Forall (λ x, key m ≤ key x) l2 →
  Py.sorted key (l1 ++ m :: l2) = m :: Py.sorted key (l1 ++ l2).
Proof.
  intros H1 H2. induction H1 as [|x l1 Hx H1 IH]; cbn [app].
  - cbn [Py.sorted foldr]. fold (Py.sorted key l2).
    apply insert_by_least. by rewrite sorted_perm.
  - cbn [Py.sorted foldr]. fold (Py.sorted key (l1 ++ m :: l2)).
    fold (Py.sorted key (l1 ++ l2)). rewrite IH. cbn [Py.insert_by].
    by destruct (Z.leb_spec (key x) (key m)); [lia|].
Qed.

(** X14. The primary MAC of a node is its oldest MAC and, when several
    MACs are as old, the one of them that comes first in the MACs of the
    node. *)
Theorem configure_macs_tie (registration_org : string → option string)
    (node : Node) (before after : list MACAddress) (mac : MACAddress) :
  macaddress_set node = before ++ mac :: after →
  Forall (λ other, created mac < created other) before →
  Forall (λ other, created mac ≤ created other) after →
  primary_mac (configure_macs_node registration_org node)
  = Some (mac_address mac)
  ∧ extra_macs (configure_macs_node registration_org node)
    = mac_address <$> Py.sorted created (before ++ after).
Proof.
  intros Hset Hbefore Hafter. unfold configure_macs_node.
  rewrite Hset, (sorted_first_least created before after mac) by done.
  cbn [map]. rewrite format_percent_s. cbn [primary_mac extra_macs].
  split; [done|]. apply map_ext. intros m. apply format_percent_s.
Qed.

Lemma configure_macs_tie_witness :
  primary_mac (configure_macs_node (λ _, None) example_tied_node)
  = Some "aa:bb:cc:dd:ee:07"
  ∧ extra_macs (configure_macs_node (λ _, None) example_tied_node)
    = mac_address <$>
        Py.sorted created
          ([ {| mac_address := "aa:bb:cc:dd:ee:09"; created := 30 |} ]
           ++ [ {| mac_address := "aa:bb:cc:dd:ee:08"; created := 10 |} ]).
Proof.
  apply (configure_macs_tie (λ _, None) example_tied_node
           [ {| mac_address := "aa:bb:cc:dd:ee:09"; created := 30 |} ]
           [ {| mac_address := "aa:bb:cc:dd:ee:08"; created := 10 |} ]
           {| mac_address := "aa:bb:cc:dd:ee:07"; created := 10 |}).
  - reflexivity.
  - apply Forall_cons. split; [done|constructor].
  - apply Forall_cons. split; [done|constructor].
Defined.

(** X15. Configuring the MACs of nodes twice is configuring them once; it
    keeps the nodes, their order, their identifiers, statuses and MACs;
    and a node has a primary MAC exactly when it has a MAC, the extra MACs
    being one less than its MACs. *)
Theorem configure_macs_idempotent (registration_org : string → option string)
    (nodes : list Node) :
  configure_macs registration_org (configure_macs registration_org nodes)
  = configure_macs registration_org nodes
  ∧ Forall2 (λ node node',
       system_id node' = system_id node ∧ status node' = status node
       ∧ macaddress_set node' = macaddress_set node
       ∧ (primary_mac node' = None ↔ macaddress_set node = [])
       ∧ (primary_mac_vendor node' = None ↔ macaddress_set node = [])
       ∧ length (extra_macs node') = (length (macaddress_set node) - 1)%nat)
      nodes (configure_macs registration_org nodes).
Proof.
  assert (Hnode : ∀ node,
    let node' := configure_macs_node registration_org node in
    system_id node' = system_id node ∧ status node' = status node
    ∧ macaddress_set node' = macaddress_set node
    ∧ (primary_mac node' = None ↔ macaddress_set node = [])
    ∧ (primary_mac_vendor node' = None ↔ macaddress_set node = [])
    ∧ length (extra_macs node') = (length (macaddress_set node) - 1)%nat).
  { intros node. cbn zeta. unfold configure_macs_node.
    pose proof (Permutation_length (sorted_perm created (macaddress_set node)))
      as Hlen.
    destruct (macaddress_set node) as [|m ms] eqn:Hset.
    - cbn. by repeat split.
    - destruct (Py.sorted created (m :: ms)) as [|first rest]; [done|].
      cbn in *. rewrite length_map. repeat split; try done; lia. }
  split.
  - unfold configure_macs. rewrite map_map. apply map_ext. intros node.
    destruct (Hnode node) as (_ & _ & Hset & _).
    unfold configure_macs_node at 1. rewrite Hset.
    unfold configure_macs_node.
    by destruct (map _ (Py.sorted created (macaddress_set node))).
  - unfold configure_macs. change (map ?f ?l) with (f <$> l).
    apply Forall2_fmap_r, Forall_Forall2_diag, Forall_forall.
    intros node _. apply Hnode.
Qed.

(** X16. Whatever the database reads as [\w], a table whose keys all
    match the expression for the database is left as it is by the
    migration, which then selects no row and cannot fail, whatever the
    rows are. *)
Theorem fix_ownerdata_keys_clean (db_word : ascii → bool)
    (table : list OwnerData) :
  Forall (λ row, key_regex db_word (key row) = true) table →
  fix_ownerdata_keys db_word table = Ok table.
Proof.
  intros Hall. unfold fix_ownerdata_keys.
  generalize (existing_node_keys table) as keys. intros keys.
  induction Hall as [|entry rest Hentry Hall IH]; [done|].
  by rewrite fix_entries_cons, Hentry, IH.
Qed.

Lemma fix_ownerdata_keys_clean_witness :
  fix_ownerdata_keys latin1_letters_word clean_table = Ok clean_table.
Proof.
  apply (fix_ownerdata_keys_clean latin1_letters_word clean_table).
  by repeat constructor.
Defined.

(** ** More on the unique index of the BMCs *)

(** X17. What the index lets in: a table with one more row satisfies the
    index exactly when the table did and the new row either has the power
    type [manual] or differs, in the md5 of its power parameters, from
    every row of its power type.  So a BMC of power type [manual] can
    always be added. *)
Theorem bmc_index_insert (md5 : string → string) (table : list BMC) (bmc : BMC) :
  satisfies (maasserver_bmc_power_type_parameters_idx md5) (table ++ [bmc])
  ↔ satisfies (maasserver_bmc_power_type_parameters_idx md5) table
    ∧ (power_type bmc = "manual"
       ∨ ∀ row, row ∈ table → power_type row = power_type bmc →
           md5 (power_parameters row) ≠ md5 (power_parameters bmc)).
Proof.
  unfold satisfies. rewrite filter_app, fmap_app, NoDup_app.
  rewrite filter_cons, filter_nil. cbn [index_where maasserver_bmc_power_type_parameters_idx].
  destruct (String.eqb_spec (power_type bmc) "manual") as [Hman|Hman]; cbn [negb].
  - rewrite decide_False by done. rewrite fmap_nil. split.
    + intros (Hnd & _ & _). split; [done|by left].
    + intros [Hnd _]. split; [done|]. split; [|constructor].
      by intros x _ ?%elem_of_nil.
  - rewrite decide_True by done. rewrite fmap_cons, fmap_nil. split.
    + intros (Hnd & Hdisj & _). split; [done|]. right.
      intros row Hrow Hty Hmd5.
      apply (Hdisj (power_type row, md5 (power_parameters row))).
      * apply list_elem_of_fmap. exists row. split; [done|].
        apply list_elem_of_filter. split; [|done]. cbn.
        apply negb_true_iff, String.eqb_neq. congruence.
      * apply list_elem_of_singleton. cbn. congruence.
    + intros [Hnd [Hman'|Hfresh]]; [done|]. split; [done|].
      split; [|apply NoDup_singleton].
      intros x (row & -> & [_ Hrow]%list_elem_of_filter)%list_elem_of_fmap
        Heq%list_elem_of_singleton.
      cbn in Heq. injection Heq as Hty Hmd5. by eapply Hfresh.
Qed.

Example bmc_index_insert_example :
  satisfies (maasserver_bmc_power_type_parameters_idx (λ s, s))
    (ipmi_bmcs ++ manual_bmcs)
  ∧ ¬ satisfies (maasserver_bmc_power_type_parameters_idx (λ s, s))
        (ipmi_bmcs ++ [ {| power_type := "ipmi";
                           power_parameters := "{power_address: 10.0.0.1}" |} ]).
Proof.
  split.
  - unfold satisfies. by apply (bool_decide_unpack _).
  - unfold satisfies. by apply (bool_decide_unpack _).
Qed.

(** ** Examples of the sort order and of the sort links *)

Example compose_sort_order_examples :
  _compose_sort_order
    {| query := None; query_error := None;
       sort_by := Some "hostname"; sort_dir := Some "desc" |}
  = ["-hostname"; "-created"]
  ∧ _compose_sort_order
      {| query := None; query_error := None;
         sort_by := Some "primary_mac"; sort_dir := Some "desc" |}
    = ["-created"]
  ∧ _compose_sort_order
      {| query := None; query_error := None;
         sort_by := Some "id; DROP TABLE"; sort_dir := None |}
    = ["-created"].
Proof. by vm_compute. Qed.

Example late_sort_example :
  system_id <$>
    late_sort {| query := None; query_error := None;
                 sort_by := Some "primary_mac"; sort_dir := None |}
      (configure_macs (λ _, None)
         [example_tied_node; example_allocated_node; example_node])
  = ["node-2"; "node-1"; "node-3"]
  ∧ system_id <$>
      late_sort {| query := None; query_error := None;
                   sort_by := Some "primary_mac"; sort_dir := Some "desc" |}
        (configure_macs (λ _, None)
           [example_tied_node; example_allocated_node; example_node])
    = ["node-3"; "node-1"; "node-2"].
Proof. by vm_compute. Qed.

Example link_class_examples :
  link_class {| query := None; query_error := None;
                sort_by := Some "zone"; sort_dir := Some "asc" |} "zone"
  = "sort-asc"
  ∧ link_class {| query := None; query_error := None;
                  sort_by := Some "zone"; sort_dir := None |} "zone"
    = "sort-None"
  ∧ link_dir {| query := None; query_error := None;
                sort_by := Some "zone"; sort_dir := None |} "zone"
    = "desc"
  ∧ link_dir {| query := None; query_error := None;
                sort_by := Some "zone"; sort_dir := Some "desc" |} "owner"
    = "asc".
Proof. by vm_compute. Qed.

Example python_word_examples :
  python_word "233" = true ∧ python_word "178" = true
  ∧ python_word "215" = false ∧ python_word " " = false
  ∧ REPLACE_RE_sub "_" (superscript_key +:+ " " +:+ accent_key +:+ "!")
    = superscript_key +:+ "_" +:+ accent_key +:+ "_".
Proof. by vm_compute. Qed.
